(** * PR Summarizer frontend: API client and input form

    A shallow embedding of the TypeScript sources

    - [services/api.ts]: error classes, client configuration, the retrying
      [APIClient.request], cancellation, error-body parsing and
      [generateSummary];
    - [components/InputForm.tsx]: field validation and [handleSubmit];
    - [App.tsx]: [handleSummaryRequest], which connects the two.

    Conventions.  JavaScript numbers that the code uses as counters,
    milliseconds and HTTP statuses are integers ([Z]); strings are
    sequences of code units below U+0100; an optional property is an
    [option]; a thrown exception is the [Rejected] case of a settled
    promise.  Logging ([log]) only writes to the console and is left out. *)

From stdpp Require Import base list strings pretty gmap.
From Equations Require Import Equations.
From Stdlib Require Import ZArith Ascii Lia Sorted.

Open Scope Z_scope.

(** ** JavaScript string primitives used by the sources *)

Module JS.

(** White space and line terminators removed by [String.prototype.trim]
    (TAB, LF, VT, FF, CR, SP, NBSP). *)
Definition isWhiteSpace (c : ascii) : bool :=
  let n := nat_of_ascii c in
  ((9 <=? n) && (n <=? 13) || (n =? 32) || (n =? 160))%nat.

Fixpoint trimStart (s : string) : string :=
  match s with
  | EmptyString => EmptyString
  | String c s' => if isWhiteSpace c then trimStart s' else s
  end.

Fixpoint trimEnd (s : string) : string :=
  match s with
  | EmptyString => EmptyString
  | String c s' =>
      match trimEnd s' with
      | EmptyString => if isWhiteSpace c then EmptyString else String c EmptyString
      | t => String c t
      end
  end.

Definition trim (s : string) : string := trimEnd (trimStart s).

(** [s.includes(needle)] *)
Fixpoint includes (s needle : string) : bool :=
  String.prefix needle s ||
  match s with
  | EmptyString => false
  | String _ s' => includes s' needle
  end.

(** Truthiness of a string-or-undefined value: [undefined] and the empty
    string are falsy. *)
Definition truthy (v : option string) : bool :=
  match v with
  | Some s => negb (String.eqb s EmptyString)
  | None => false
  end.

(** [v || undefined] on a string-or-undefined value. *)
Definition or_undefined (v : option string) : option string :=
  if truthy v then v else None.

(** A number inside a template literal. *)
Definition number_to_string (n : Z) : string := pretty n.

End JS.

(** ** services/api.ts *)

Module Api.

(** *** Types and interfaces *)

Record SummaryRequest := {
  githubPrUrl : string;
  jiraTicketId : option string
}.

(** One entry of [ValidationError.errors]. *)
Record FieldError := {
  field : string;
  field_message : string;
  code : string;
  value : option string
}.

(** A decoded error body, [APIError | ValidationError].  The property
    [errors] is present exactly on a [ValidationError], so
    ['errors' in errorData] is [errors <> None].  [details] is an opaque
    JSON object. *)
Record APIError := {
  error : string;
  message : string;
  timestamp : string;
  correlation_id : option string;
  path : option string;
  method : option string;
  details : option string;
  errors : option (list FieldError)
}.

(** *** Error classes

    The four classes share the fields of [APIClientError]; [class] records
    which constructor built the instance, so that [e instanceof K] is a
    test on [class]. *)

Inductive ErrorClass :=
| ClsAPIClientError
| ClsValidationAPIError
| ClsNetworkError
| ClsTimeoutError.

Record APIClientError := {
  class : ErrorClass;
  err_message : string;
  statusCode : option Z;
  errorCode : option string;
  correlationId : option string;
  err_details : option string;
  validationErrors : option (list FieldError);
  originalError : option string
}.

Definition name (e : APIClientError) : string :=
  match class e with
  | ClsAPIClientError => "APIClientError"
  | ClsValidationAPIError => "ValidationAPIError"
  | ClsNetworkError => "NetworkError"
  | ClsTimeoutError => "TimeoutError"
  end.

Definition new_APIClientError (msg : string) (status : option Z)
    (ecode corr dets : option string) : APIClientError :=
  {| class := ClsAPIClientError; err_message := msg; statusCode := status;
     errorCode := ecode; correlationId := corr; err_details := dets;
     validationErrors := None; originalError := None |}.

(** [super(message, 400, 'VALIDATION_ERROR', correlationId)] *)
Definition new_ValidationAPIError (msg : string) (errs : list FieldError)
    (corr : option string) : APIClientError :=
  {| class := ClsValidationAPIError; err_message := msg; statusCode := Some 400;
     errorCode := Some "VALIDATION_ERROR"; correlationId := corr;
     err_details := None; validationErrors := Some errs; originalError := None |}.

(** [super(message, 0, 'NETWORK_ERROR')] *)
Definition new_NetworkError (msg : string) (orig : option string) : APIClientError :=
  {| class := ClsNetworkError; err_message := msg; statusCode := Some 0;
     errorCode := Some "NETWORK_ERROR"; correlationId := None;
     err_details := None; validationErrors := None; originalError := orig |}.

(** [super(message, 0, 'TIMEOUT_ERROR')], default message
    ['Request timed out']. *)
Definition new_TimeoutError (msg : option string) : APIClientError :=
  {| class := ClsTimeoutError; err_message := default "Request timed out" msg;
     statusCode := Some 0; errorCode := Some "TIMEOUT_ERROR"; correlationId := None;
     err_details := None; validationErrors := None; originalError := None |}.

(** *** Configuration *)

(** [APIClientConfig]: every property optional. *)
Record APIClientConfig := {
  opt_baseURL : option string;
  opt_timeout : option Z;
  opt_retries : option Z;
  opt_retryDelay : option Z;
  opt_retryBackoff : option bool;
  opt_enableLogging : option bool
}.

(** [Required<APIClientConfig>] *)
Record RequiredConfig := {
  baseURL : string;
  timeout : Z;
  retries : Z;
  retryDelay : Z;
  retryBackoff : bool;
  enableLogging : bool
}.

(** The two variables read from [process.env]. *)
Record ProcessEnv := {
  REACT_APP_API_BASE_URL : option string;
  NODE_ENV : option string
}.

Definition DEFAULT_CONFIG (env : ProcessEnv) : RequiredConfig :=
  {| baseURL :=
       if JS.truthy (REACT_APP_API_BASE_URL env)
       then default EmptyString (REACT_APP_API_BASE_URL env)
       else "http://localhost:8000";
     timeout := 30000;
     retries := 3;
     retryDelay := 1000;
     retryBackoff := true;
     enableLogging := bool_decide (NODE_ENV env = Some "development") |}.

(** Object spread [{ ...base, ...over }]: a property named in [over]
    replaces the one of [base]. *)
Definition spread (base : RequiredConfig) (over : APIClientConfig) : RequiredConfig :=
  {| baseURL := default (baseURL base) (opt_baseURL over);
     timeout := default (timeout base) (opt_timeout over);
     retries := default (retries base) (opt_retries over);
     retryDelay := default (retryDelay base) (opt_retryDelay over);
     retryBackoff := default (retryBackoff base) (opt_retryBackoff over);
     enableLogging := default (enableLogging base) (opt_enableLogging over) |}.

Definition no_overrides : APIClientConfig :=
  {| opt_baseURL := None; opt_timeout := None; opt_retries := None;
     opt_retryDelay := None; opt_retryBackoff := None; opt_enableLogging := None |}.

(** *** Utility functions *)

(** [!error.statusCode] holds for [undefined] and for [0]. *)
Definition isRetryableError (e : APIClientError) : bool :=
  match statusCode e with
  | None => true
  | Some s => if s =? 0 then true else (500 <=? s) || (s =? 429)
  end.

(** *** The client object and the abort controllers it refers to

    [this.abortController] holds a reference to a mutable
    [AbortController]; the controllers live in a store ([signals], one
    [signal.aborted] flag per controller ever created), and a reference is
    an index into it. *)

Record APIClient := {
  config : RequiredConfig;
  abortController : option nat
}.

Record World := {
  this : APIClient;
  signals : list bool
}.

(** [new APIClient(config)] in a program that has created no controller. *)
Definition new_APIClient (env : ProcessEnv) (cfg : APIClientConfig) : World :=
  {| this := {| config := spread (DEFAULT_CONFIG env) cfg; abortController := None |};
     signals := [] |}.

Definition set_abortController (r : option nat) (w : World) : World :=
  {| this := {| config := config (this w); abortController := r |};
     signals := signals w |}.

(** [new AbortController()] *)
Definition new_AbortController (w : World) : nat * World :=
  (length (signals w), {| this := this w; signals := signals w ++ [false] |}).

(** [controller.abort()] *)
Definition abort (c : nat) (w : World) : World :=
  {| this := this w; signals := <[c := true]> (signals w) |}.

(** [controller.signal.aborted] *)
Definition aborted (w : World) (c : nat) : bool :=
  default false (signals w !! c).

Definition updateConfig (cfg : APIClientConfig) (w : World) : World :=
  {| this := {| config := spread (config (this w)) cfg;
                abortController := abortController (this w) |};
     signals := signals w |}.

Definition cancelRequests (w : World) : World :=
  match abortController (this w) with
  | Some c => set_abortController None (abort c w)
  | None => w
  end.

(** *** What the environment does during one attempt

    JavaScript is single threaded: other code runs only while [request] is
    suspended at an [await].  An [Action] is something another caller does
    at such a point.  No action changes the configuration: a call is
    followed under the configuration it started with. *)

Inductive Action :=
| ActCancel      (* a caller invokes [cancelRequests()] *)
| ActNewCall.    (* another top-level [request] starts and runs up to its [fetch] *)

Definition run_action (w : World) (a : Action) : World :=
  match a with
  | ActCancel => cancelRequests w
  | ActNewCall =>
      let '(c, w1) := new_AbortController w in set_abortController (Some c) w1
  end.

Definition run_actions (acts : list Action) (w : World) : World :=
  fold_left run_action acts w.

(** A decoded success payload (opaque JSON). *)
Definition JSON := string.

(** The value [response.json()] resolves with is untyped; the code reads it
    as an error body on the error path and as the payload on the success
    path. *)
Record Decoded := {
  as_error : APIError;
  as_payload : JSON
}.

(** A received response; [json = None] when the body is not JSON, so that
    [response.json()] rejects. *)
Record Response := {
  status : Z;
  statusText : string;
  json : option Decoded
}.

(** [response.ok] *)
Definition ok (r : Response) : bool := (200 <=? status r) && (status r <=? 299).

(** How the race between [fetch] and the timer settles when the signal is
    not aborted. *)
Inductive FetchResult :=
| Responds (r : Response)          (* [fetch] resolves first *)
| FetchFails (msg : string)        (* [fetch] rejects first, with [TypeError(msg)] *)
| TimerFires.                      (* the timer rejects first, with [new TimeoutError()] *)

(** The script of one attempt: what other callers do while the race is
    pending, how the race settles, what other callers do during the
    back-off sleep, and what the clock reads.  The race and the sleep are
    the two suspension points at which other callers are scheduled here;
    nobody acts while a response body is read.  The module [Interleaved]
    below adds that third suspension point. *)
Record Attempt := {
  while_pending : list Action;
  settles : FetchResult;
  while_sleeping : list Action;
  now : string
}.

(** *** Exceptions and settled promises *)

Inductive JsError :=
| APIErr (e : APIClientError)   (* an instance of [APIClientError] or of a subclass *)
| TypeErr (msg : string)        (* a [TypeError] *)
| AbortErr                      (* the [DOMException] named ['AbortError'] *)
| SyntaxErr.                    (* [response.json()] on a body that is not JSON *)

Inductive Settled :=
| Resolved (data : JSON)
| Rejected (e : JsError).

Record RequestInit := {
  init_method : option string;
  init_body : option string;
  headers : list (string * string);
  signal : option nat
}.

Inductive Event :=
| EvFetch (url : string) (init : RequestInit) (deadline : Z)
| EvSleep (ms : Z).

(** *** Error responses *)

Definition parseErrorResponse (now_iso : string) (response : Response) : APIError :=
  match json response with
  | Some errorData => as_error errorData
  | None =>
      {| error := "HTTP Error";
         message := "HTTP " +:+ JS.number_to_string (status response)
                      +:+ " - " +:+ statusText response;
         timestamp := now_iso;
         correlation_id := None; path := None; method := None;
         details := None; errors := None |}
  end.

Definition createAPIError (status_code : Z) (errorData : APIError) : APIClientError :=
  match status_code =? 400, errors errorData with
  | true, Some errs =>
      new_ValidationAPIError (message errorData) errs (correlation_id errorData)
  | _, _ =>
      new_APIClientError (message errorData) (Some status_code)
        (Some (error errorData)) (correlation_id errorData) (details errorData)
  end.

(** *** The core request method *)

(** The [try] block of [request], from the point where the race between
    [fetch] and the timer has settled. *)
Definition try_block (a : Attempt) : Settled :=
  match settles a with
  | TimerFires => Rejected (APIErr (new_TimeoutError None))
  | FetchFails msg => Rejected (TypeErr msg)
  | Responds response =>
      if negb (ok response) then
        let errorData := parseErrorResponse (now a) response in
        Rejected (APIErr (createAPIError (status response) errorData))
      else
        match json response with
        | Some data => Resolved (as_payload data)
        | None => Rejected SyntaxErr
        end
  end.

(** How one invocation of [request] ends. *)
Inductive Step :=
| Return (data : JSON)
| Throw (e : JsError)
| Retry (delay : Z).   (* [await sleep(delay)], then [this.request(.., retryCount + 1)] *)

Definition is_AbortError (error : JsError) : bool :=
  match error with AbortErr => true | _ => false end.

(** [error instanceof TypeError && error.message.includes('fetch')] *)
Definition is_fetch_TypeError (error : JsError) : option string :=
  match error with
  | TypeErr msg => if JS.includes msg "fetch" then Some msg else None
  | _ => None
  end.

(** [error instanceof APIClientError] *)
Definition instanceof_APIClientError (error : JsError) : option APIClientError :=
  match error with APIErr e => Some e | _ => None end.

(** [const delay = this.config.retryBackoff ? ... : ...] *)
Definition delay_for (cfg : RequiredConfig) (retryCount : Z) : Z :=
  if retryBackoff cfg
  then retryDelay cfg * 2 ^ retryCount
  else retryDelay cfg.

(** The [catch] block of [request]. *)
Definition catch_block (cfg : RequiredConfig) (retryCount : Z) (error : JsError) : Step :=
  if is_AbortError error then
    Throw (APIErr (new_APIClientError "Request was cancelled" (Some 0)
                     (Some "CANCELLED") None None))
  else
    match is_fetch_TypeError error with
    | Some msg =>
        Throw (APIErr (new_NetworkError "Network error - please check your connection"
                         (Some msg)))
    | None =>
        match instanceof_APIClientError error with
        | Some e =>
            if (retryCount <? retries cfg) && isRetryableError e then
              Retry (delay_for cfg retryCount)
            else Throw error
        | None => Throw error
        end
    end.

(** Whether the signal of the controller that an invocation creates is
    aborted by the time the race settles. *)
Definition signal_aborted (w : World) (a : Attempt) : bool :=
  let '(controller, w0) := new_AbortController w in
  let w1 := set_abortController (Some controller) w0 in
  aborted (run_actions (while_pending a) w1) controller.

Arguments signal_aborted : simpl never.

Record Invocation := {
  fetched : Event;   (* the call [fetch(url, requestOptions)] raced against the timer *)
  step : Step;
  after : World
}.

(** One invocation of [request], up to its [return], its [throw] or its
    recursive call.  The signal is looked at when the race settles; the
    body of the response is then read with nobody else acting, so the
    signal cannot change during the read.  [Interleaved.invoke] below has
    the read as a suspension point of its own, with a second look at the
    signal. *)
Definition invoke (w : World) (a : Attempt) (endpoint : string)
    (options : RequestInit) (retryCount : Z) : Invocation :=
  let url := baseURL (config (this w)) +:+ endpoint in
  let '(controller, w0) := new_AbortController w in
  let w1 := set_abortController (Some controller) w0 in
  let requestOptions :=
    {| init_method := init_method options;
       init_body := init_body options;
       headers := [("Content-Type", "application/json"); ("Accept", "application/json")]
                    ++ headers options;
       signal := Some controller |} in
  let w2 := run_actions (while_pending a) w1 in
  let tried := if aborted w2 controller then Rejected AbortErr else try_block a in
  {| fetched := EvFetch url requestOptions (timeout (config (this w1)));
     step := match tried with
             | Resolved data => Return data
             | Rejected error => catch_block (config (this w2)) retryCount error
             end;
     after := w2 |}.

Arguments invoke : simpl never.

(** The result of a whole call: how the promise settles, the network
    attempts and sleeps performed, in order, and the state left behind. *)
Record Run := {
  settled : Settled;
  events : list Event;
  final : World
}.

Definition inspect {A : Type} (a : A) : {b : A | a = b} := exist _ a eq_refl.

Lemma run_actions_config (acts : list Action) (w : World) :
  config (this (run_actions acts w)) = config (this w).
Proof.
  revert w; induction acts as [|a acts IH]; intros w; [reflexivity|].
  cbn [run_actions fold_left] in *. rewrite IH.
  destruct a; cbn; [|reflexivity].
  unfold cancelRequests. destruct (abortController (this w)); reflexivity.
Qed.

Lemma invoke_after_config w a endpoint options retryCount :
  config (this (after (invoke w a endpoint options retryCount))) = config (this w).
Proof. unfold invoke; cbn. now rewrite run_actions_config. Qed.

Lemma catch_block_Retry cfg retryCount error delay :
  catch_block cfg retryCount error = Retry delay -> retryCount < retries cfg.
Proof.
  unfold catch_block.
  destruct (is_AbortError error); [discriminate|].
  destruct (is_fetch_TypeError error); [discriminate|].
  destruct (instanceof_APIClientError error); [|discriminate].
  destruct (Z.ltb_spec retryCount (retries cfg)); [trivial|discriminate].
Qed.

Lemma invoke_Retry w a endpoint options retryCount delay :
  step (invoke w a endpoint options retryCount) = Retry delay ->
  retryCount < retries (config (this w)).
Proof.
  unfold invoke; cbn. destruct (if aborted _ _ then _ else _); [discriminate|].
  intros H%catch_block_Retry. now rewrite run_actions_config in H.
Qed.

(** [request]: the attempt counter [retryCount] grows by one at each
    recursive call and a recursive call needs [retryCount < retries], so
    [retries - retryCount] decreases. *)
Equations? request (w : World) (env : Z -> Attempt) (endpoint : string)
    (options : RequestInit) (retryCount : Z) : Run
  by wf (Z.to_nat (retries (config (this w)) - retryCount)) lt :=
request w env endpoint options retryCount
  with inspect (step (invoke w (env retryCount) endpoint options retryCount)) := {
  | exist _ (Return data) _ =>
      let i := invoke w (env retryCount) endpoint options retryCount in
      {| settled := Resolved data; events := [fetched i]; final := after i |}
  | exist _ (Throw e) _ =>
      let i := invoke w (env retryCount) endpoint options retryCount in
      {| settled := Rejected e; events := [fetched i]; final := after i |}
  | exist _ (Retry delay) _ =>
      let i := invoke w (env retryCount) endpoint options retryCount in
      let w' := run_actions (while_sleeping (env retryCount)) (after i) in
      let r := request w' env endpoint options (retryCount + 1) in
      {| settled := settled r;
         events := fetched i :: EvSleep delay :: events r;
         final := final r |} }.
Proof.
  assert (retryCount < retries (config (this w))) as Hlt
    by exact (invoke_Retry w (env retryCount) endpoint options retryCount delay e).
  subst w'. rewrite !run_actions_config. cbn. lia.
Qed.

(** Network attempts and back-off delays of a run, read off its events. *)
Definition is_fetch (ev : Event) : bool :=
  match ev with EvFetch _ _ _ => true | EvSleep _ => false end.

Definition attempts (evs : list Event) : Z := Z.of_nat (length (filter is_fetch evs)).

Fixpoint delays (evs : list Event) : list Z :=
  match evs with
  | [] => []
  | EvSleep ms :: evs' => ms :: delays evs'
  | EvFetch _ _ _ :: evs' => delays evs'
  end.

(** *** Public API methods *)

(** The object literal [cleanRequest]. *)
Record CleanRequest := {
  github_pr_url : string;
  jira_ticket_id : option string
}.

Definition double_quote : string := String (ascii_of_nat 34) EmptyString.

Definition hex_digit (n : nat) : string :=
  String (default "0"%char (String.get n "0123456789abcdef")) EmptyString.

(** One character inside a JSON string, as [JSON.stringify] writes it. *)
Definition quote_char (c : ascii) : string :=
  let n := nat_of_ascii c in
  (if n =? 8 then "\b"
   else if n =? 9 then "\t"
   else if n =? 10 then "\n"
   else if n =? 12 then "\f"
   else if n =? 13 then "\r"
   else if n =? 34 then "\" +:+ double_quote
   else if n =? 92 then "\\"
   else if n <? 32 then "\u00" +:+ hex_digit (n / 16) +:+ hex_digit (n mod 16)
   else String c EmptyString)%nat.

Fixpoint quote_chars (s : string) : string :=
  match s with
  | EmptyString => EmptyString
  | String c s' => quote_char c +:+ quote_chars s'
  end.

Definition quote (s : string) : string := double_quote +:+ quote_chars s +:+ double_quote.

(** [JSON.stringify(cleanRequest)]: a property whose value is [undefined]
    is left out. *)
Definition JSON_stringify (c : CleanRequest) : string :=
  "{" +:+ quote "github_pr_url" +:+ ":" +:+ quote (github_pr_url c)
    +:+ match jira_ticket_id c with
        | Some t => "," +:+ quote "jira_ticket_id" +:+ ":" +:+ quote t
        | None => EmptyString
        end
    +:+ "}".

Definition clean (r : SummaryRequest) : CleanRequest :=
  {| github_pr_url := JS.trim (githubPrUrl r);
     jira_ticket_id := JS.or_undefined (JS.trim <$> jiraTicketId r) |}.

Definition post (body : string) : RequestInit :=
  {| init_method := Some "POST"; init_body := Some body; headers := []; signal := None |}.

(** [options = {}] *)
Definition no_options : RequestInit :=
  {| init_method := None; init_body := None; headers := []; signal := None |}.

Definition generateSummary (w : World) (env : Z -> Attempt) (r : SummaryRequest) : Run :=
  let cleanRequest := clean r in
  request w env "/api/v1/summary/generate" (post (JSON_stringify cleanRequest)) 0.

Definition generateSummaryAsync (w : World) (env : Z -> Attempt) (r : SummaryRequest) : Run :=
  let cleanRequest := clean r in
  request w env "/api/v1/summary/generate-async" (post (JSON_stringify cleanRequest)) 0.

Definition getHealth (w : World) (env : Z -> Attempt) : Run :=
  request w env "/api/v1/summary/health" no_options 0.

Definition getMetrics (w : World) (env : Z -> Attempt) : Run :=
  request w env "/api/v1/summary/metrics" no_options 0.

Definition ping (w : World) (env : Z -> Attempt) : Run :=
  request w env "/health" no_options 0.

(** *** Singleton instance *)

(** The module-level variable [apiClientInstance], together with the store
    of abort controllers that client objects refer to. *)
Record Program := {
  apiClientInstance : option APIClient;
  controllers : list bool
}.

Definition world_of (p : Program) (inst : APIClient) : World :=
  {| this := inst; signals := controllers p |}.

(** [getAPIClient(config?)]: the instance it returns is the one left in
    [apiClientInstance]. *)
Definition getAPIClient (penv : ProcessEnv) (cfg : option APIClientConfig)
    (p : Program) : Program :=
  match apiClientInstance p with
  | None =>
      {| apiClientInstance := Some (this (new_APIClient penv (default no_overrides cfg)));
         controllers := controllers p |}
  | Some inst =>
      match cfg with
      | Some c =>
          let w := updateConfig c (world_of p inst) in
          {| apiClientInstance := Some (this w); controllers := signals w |}
      | None => p
      end
  end.

Definition resetAPIClient (p : Program) : Program :=
  match apiClientInstance p with
  | Some inst =>
      {| apiClientInstance := None;
         controllers := signals (cancelRequests (world_of p inst)) |}
  | None => {| apiClientInstance := None; controllers := controllers p |}
  end.

End Api.

(** ** services/api.ts, with the body reads as suspension points

    [request] is suspended a third time while a response body is read:
    at [await this.parseErrorResponse(response)] for an error response and
    at [await response.json()] for a successful one.  An [AbortController]
    that is aborted during the read makes [response.json()] reject with the
    abort error.  This module follows [request] through that suspension
    point as well; [Api.request] is the case in which nobody acts while a
    body is read (lemma [request_quiet_reads] below). *)

Module Interleaved.
Import Api.

(** The script of one attempt: the script of [Api.Attempt], and what other
    callers do while the body of the response is read. *)
Record Attempt := {
  script : Api.Attempt;
  while_reading : list Action
}.

(** [await response.json()], when the signal of the request has or has not
    been aborted by the time the body has been read. *)
Definition response_json (read_aborted : bool) (response : Response)
  : Decoded + JsError :=
  if read_aborted then inr AbortErr
  else match json response with
       | Some data => inl data
       | None => inr SyntaxErr
       end.

(** [parseErrorResponse]: its [catch] has no binding and no test, so every
    rejection of [response.json()] leads to the fallback body. *)
Definition parseErrorResponse (now_iso : string) (read_aborted : bool)
    (response : Response) : APIError :=
  match response_json read_aborted response with
  | inl errorData => as_error errorData
  | inr _ =>
      {| error := "HTTP Error";
         message := "HTTP " +:+ JS.number_to_string (status response)
                      +:+ " - " +:+ statusText response;
         timestamp := now_iso;
         correlation_id := None; path := None; method := None;
         details := None; errors := None |}
  end.

(** The [try] block of [request], from the point where the race has
    settled. *)
Definition try_block (read_aborted : bool) (a : Api.Attempt) : Settled :=
  match settles a with
  | TimerFires => Rejected (APIErr (new_TimeoutError None))
  | FetchFails msg => Rejected (TypeErr msg)
  | Responds response =>
      if negb (ok response) then
        let errorData := parseErrorResponse (now a) read_aborted response in
        Rejected (APIErr (createAPIError (status response) errorData))
      else
        match response_json read_aborted response with
        | inl data => Resolved (as_payload data)
        | inr error => Rejected error
        end
  end.

(** Whether the attempt gets as far as reading a body. *)
Definition reads_body (a : Api.Attempt) : bool :=
  match settles a with
  | Responds _ => true
  | _ => false
  end.

(** One invocation of [request], up to its [return], its [throw] or its
    recursive call. *)
Definition invoke (w : World) (a : Attempt) (endpoint : string)
    (options : RequestInit) (retryCount : Z) : Invocation :=
  let url := baseURL (config (this w)) +:+ endpoint in
  let '(controller, w0) := new_AbortController w in
  let w1 := set_abortController (Some controller) w0 in
  let requestOptions :=
    {| init_method := init_method options;
       init_body := init_body options;
       headers := [("Content-Type", "application/json"); ("Accept", "application/json")]
                    ++ headers options;
       signal := Some controller |} in
  let w2 := run_actions (while_pending (script a)) w1 in
  let w3 :=
    if negb (aborted w2 controller) && reads_body (script a)
    then run_actions (while_reading a) w2
    else w2 in
  let tried :=
    if aborted w2 controller then Rejected AbortErr
    else try_block (aborted w3 controller) (script a) in
  {| fetched := EvFetch url requestOptions (timeout (config (this w1)));
     step := match tried with
             | Resolved data => Return data
             | Rejected error => catch_block (config (this w3)) retryCount error
             end;
     after := w3 |}.

Arguments invoke : simpl never.

Lemma reading_invoke_after_config w a endpoint options retryCount :
  config (this (after (invoke w a endpoint options retryCount))) = config (this w).
Proof.
  unfold invoke; cbn.
  destruct (negb _ && _); now rewrite ?run_actions_config.
Qed.

Lemma reading_invoke_Retry w a endpoint options retryCount delay :
  step (invoke w a endpoint options retryCount) = Retry delay ->
  retryCount < retries (config (this w)).
Proof.
  intros Hstep.
  pose proof (reading_invoke_after_config w a endpoint options retryCount) as Hcfg.
  unfold invoke in *; cbn in *.
  destruct (if aborted _ _ then _ else _); [discriminate|].
  apply catch_block_Retry in Hstep. now rewrite Hcfg in Hstep.
Qed.

(** [request], with the same measure as [Api.request]. *)
Equations? request (w : World) (env : Z -> Attempt) (endpoint : string)
    (options : RequestInit) (retryCount : Z) : Run
  by wf (Z.to_nat (retries (config (this w)) - retryCount)) lt :=
request w env endpoint options retryCount
  with inspect (step (invoke w (env retryCount) endpoint options retryCount)) := {
  | exist _ (Return data) _ =>
      let i := invoke w (env retryCount) endpoint options retryCount in
      {| settled := Resolved data; events := [fetched i]; final := after i |}
  | exist _ (Throw e) _ =>
      let i := invoke w (env retryCount) endpoint options retryCount in
      {| settled := Rejected e; events := [fetched i]; final := after i |}
  | exist _ (Retry delay) _ =>
      let i := invoke w (env retryCount) endpoint options retryCount in
      let w' := run_actions (while_sleeping (script (env retryCount))) (after i) in
      let r := request w' env endpoint options (retryCount + 1) in
      {| settled := settled r;
         events := fetched i :: EvSleep delay :: events r;
         final := final r |} }.
Proof.
  assert (retryCount < retries (config (this w))) as Hlt
    by exact (reading_invoke_Retry w (env retryCount) endpoint options retryCount delay e).
  assert (config (this w') = config (this w)) as Hcfg.
  { subst w'. rewrite run_actions_config.
    exact (reading_invoke_after_config w (env retryCount) endpoint options retryCount). }
  rewrite Hcfg. lia.
Qed.

Definition getHealth (w : World) (env : Z -> Attempt) : Run :=
  request w env "/api/v1/summary/health" no_options 0.

End Interleaved.

(** ** Regular expressions of the form [/^...$/]

    A pattern anchored at both ends accepts a string when the whole string
    matches; matching is by derivatives. *)

Module RegExp.

Inductive regex :=
| Never
| Eps
| Class (p : ascii -> bool)
| Cat (r1 r2 : regex)
| Alt (r1 r2 : regex)
| Star (r : regex).

Fixpoint nullable (r : regex) : bool :=
  match r with
  | Never => false
  | Eps => true
  | Class _ => false
  | Cat r1 r2 => nullable r1 && nullable r2
  | Alt r1 r2 => nullable r1 || nullable r2
  | Star _ => true
  end.

Fixpoint deriv (c : ascii) (r : regex) : regex :=
  match r with
  | Never => Never
  | Eps => Never
  | Class p => if p c then Eps else Never
  | Cat r1 r2 =>
      if nullable r1
      then Alt (Cat (deriv c r1) r2) (deriv c r2)
      else Cat (deriv c r1) r2
  | Alt r1 r2 => Alt (deriv c r1) (deriv c r2)
  | Star r1 => Cat (deriv c r1) (Star r1)
  end.

(** [/^r$/.test(s)] *)
Fixpoint test (r : regex) (s : string) : bool :=
  match s with
  | EmptyString => nullable r
  | String c s' => test (deriv c r) s'
  end.

Definition between (lo hi : nat) (c : ascii) : bool :=
  let n := nat_of_ascii c in ((lo <=? n) && (n <=? hi))%nat.

(** [\d] *)
Definition digit : regex := Class (between 48 57).

(** [[A-Z]] under the [i] flag: a letter of either case. *)
Definition letter_i : regex := Class (fun c => between 65 90 c || between 97 122 c).

(** A literal character, and its complement class [[^c]]. *)
Definition chr (c : ascii) : regex := Class (fun x => bool_decide (x = c)).
Definition not_chr (c : ascii) : regex := Class (fun x => negb (bool_decide (x = c))).

Fixpoint lit (s : string) : regex :=
  match s with
  | EmptyString => Eps
  | String c s' => Cat (chr c) (lit s')
  end.

(** [r+] *)
Definition plus (r : regex) : regex := Cat r (Star r).

(** [r{0,n}] *)
Fixpoint at_most (n : nat) (r : regex) : regex :=
  match n with
  | O => Eps
  | S n' => Alt Eps (Cat r (at_most n' r))
  end.

(** [n] copies of [r], then [rest] *)
Fixpoint times (n : nat) (r rest : regex) : regex :=
  match n with
  | O => rest
  | S n' => Cat r (times n' r rest)
  end.

(** [r{lo,hi}] *)
Definition bounded (lo hi : nat) (r : regex) : regex :=
  times lo r (at_most (hi - lo) r).

End RegExp.

(** ** components/InputForm.tsx *)

Module InputForm.

Record FormData := {
  githubPrUrl : string;
  jiraTicketId : option string
}.

(** The props read by [handleSubmit]; [onSubmit] is applied by the caller
    of [handleSubmit] (see [App.submit]). *)
Record InputFormProps := {
  loading : bool;
  disabled : bool
}.

Record ValidationErrors := {
  err_githubPrUrl : option string;
  err_jiraTicketId : option string;
  general : option string
}.

Definition no_errors : ValidationErrors :=
  {| err_githubPrUrl := None; err_jiraTicketId := None; general := None |}.

(** [Object.keys(errors).length] *)
Definition keys_length (e : ValidationErrors) : nat :=
  length (omap id [err_githubPrUrl e; err_jiraTicketId e; general e]).

(** [/^https:\/\/github\.com\/[^\/]+\/[^\/]+\/pull\/\d+$/] *)
Definition GITHUB_PR_URL_PATTERN : RegExp.regex :=
  RegExp.Cat (RegExp.lit "https://github.com/")
    (RegExp.Cat (RegExp.plus (RegExp.not_chr "/"))
       (RegExp.Cat (RegExp.lit "/")
          (RegExp.Cat (RegExp.plus (RegExp.not_chr "/"))
             (RegExp.Cat (RegExp.lit "/pull/") (RegExp.plus RegExp.digit))))).

(** [/^[A-Z]{1,10}-\d+$/i] *)
Definition JIRA_TICKET_PATTERN : RegExp.regex :=
  RegExp.Cat (RegExp.bounded 1 10 RegExp.letter_i)
    (RegExp.Cat (RegExp.lit "-") (RegExp.plus RegExp.digit)).

(** [keyof FormData] *)
Inductive FieldName := FGithubPrUrl | FJiraTicketId.

Definition validateField (name : FieldName) (value : string) : option string :=
  match name with
  | FGithubPrUrl =>
      if negb (JS.truthy (Some (JS.trim value))) then
        Some "GitHub PR URL is required"
      else if negb (RegExp.test GITHUB_PR_URL_PATTERN (JS.trim value)) then
        Some "Please enter a valid GitHub PR URL (e.g., https://github.com/owner/repo/pull/123)"
      else None
  | FJiraTicketId =>
      if JS.truthy (Some (JS.trim value))
         && negb (RegExp.test JIRA_TICKET_PATTERN (JS.trim value)) then
        Some "Please enter a valid Jira ticket ID (e.g., PROJ-123)"
      else None
  end.

Definition validateForm (data : FormData) : ValidationErrors :=
  let githubError := validateField FGithubPrUrl (githubPrUrl data) in
  let jiraError :=
    validateField FJiraTicketId (default EmptyString (JS.or_undefined (jiraTicketId data))) in
  {| err_githubPrUrl := JS.or_undefined githubError;
     err_jiraTicketId := JS.or_undefined jiraError;
     general := None |}.

Record FormState := {
  formData : FormData;
  errors : ValidationErrors;
  touched : gmap string bool;
  isSubmitting : bool
}.

(** What [handleSubmit] does up to the point where it either returns or
    awaits [onSubmit(cleanData)]. *)
Inductive Submission :=
| Ignored                                        (* already submitting, loading or disabled *)
| Blocked (st : FormState)                       (* validation errors: [onSubmit] is not called *)
| Submits (cleanData : FormData) (st : FormState).

Definition handleSubmit (props : InputFormProps) (st : FormState) : Submission :=
  if isSubmitting st || loading props || disabled props then Ignored
  else
    let all_touched : gmap string bool :=
      {[ "githubPrUrl" := true; "jiraTicketId" := true ]} in
    let validationErrors := validateForm (formData st) in
    if (0 <? keys_length validationErrors)%nat then
      Blocked {| formData := formData st; errors := validationErrors;
                 touched := all_touched; isSubmitting := isSubmitting st |}
    else
      let cleanData :=
        {| githubPrUrl := JS.trim (githubPrUrl (formData st));
           jiraTicketId := JS.or_undefined (JS.trim <$> jiraTicketId (formData st)) |} in
      Submits cleanData
        {| formData := formData st; errors := no_errors;
           touched := all_touched; isSubmitting := true |}.

(** *** The other handlers of the form *)

Definition name_of (f : FieldName) : string :=
  match f with
  | FGithubPrUrl => "githubPrUrl"
  | FJiraTicketId => "jiraTicketId"
  end.

(** The string a field's input shows, [value={formData[name]}]. *)
Definition field_value (f : FieldName) (d : FormData) : string :=
  match f with
  | FGithubPrUrl => githubPrUrl d
  | FJiraTicketId => default EmptyString (jiraTicketId d)
  end.

(** [{ ...prev, [fieldName]: value }] on the form data *)
Definition set_field (f : FieldName) (v : string) (d : FormData) : FormData :=
  match f with
  | FGithubPrUrl => {| githubPrUrl := v; jiraTicketId := jiraTicketId d |}
  | FJiraTicketId => {| githubPrUrl := githubPrUrl d; jiraTicketId := Some v |}
  end.

(** [errors[fieldName]] and [{ ...prev, [fieldName]: v }] on the errors.  A
    key whose value is [undefined] reads like an absent key, and
    [Object.keys] is never applied to the stored errors, so both are
    [None]. *)
Definition get_error (f : FieldName) (e : ValidationErrors) : option string :=
  match f with
  | FGithubPrUrl => err_githubPrUrl e
  | FJiraTicketId => err_jiraTicketId e
  end.

Definition set_error (f : FieldName) (v : option string) (e : ValidationErrors)
  : ValidationErrors :=
  match f with
  | FGithubPrUrl =>
      {| err_githubPrUrl := v; err_jiraTicketId := err_jiraTicketId e; general := general e |}
  | FJiraTicketId =>
      {| err_githubPrUrl := err_githubPrUrl e; err_jiraTicketId := v; general := general e |}
  end.

(** [touched[fieldName]] as a condition *)
Definition is_touched (f : FieldName) (t : gmap string bool) : bool :=
  default false (t !! name_of f).

(** The state of a freshly mounted form, from the optional [initialData]. *)
Definition initial (initial_url initial_ticket : option string) : FormState :=
  {| formData :=
       {| githubPrUrl := default EmptyString (JS.or_undefined initial_url);
          jiraTicketId := Some (default EmptyString (JS.or_undefined initial_ticket)) |};
     errors := no_errors;
     touched := ∅;
     isSubmitting := false |}.

Definition handleInputChange (f : FieldName) (v : string) (st : FormState) : FormState :=
  let cleared :=
    if JS.truthy (get_error f (errors st))
    then set_error f None (errors st)
    else errors st in
  let validated :=
    if is_touched f (touched st) then
      let fieldError := validateField f v in
      if JS.truthy fieldError then set_error f fieldError cleared else cleared
    else cleared in
  {| formData := set_field f v (formData st);
     errors := validated;
     touched := touched st;
     isSubmitting := isSubmitting st |}.

Definition handleInputBlur (f : FieldName) (v : string) (st : FormState) : FormState :=
  let fieldError := validateField f v in
  {| formData := formData st;
     errors := if JS.truthy fieldError
               then set_error f fieldError (errors st)
               else errors st;
     touched := <[name_of f := true]> (touched st);
     isSubmitting := isSubmitting st |}.

(** [handleSubmit] after [await onSubmit(cleanData)], from the state in
    which [onSubmit] was called: the form is reset when the promise
    resolves, and shows the error's message when it rejects. *)
Definition submit_resolved (st : FormState) : FormState :=
  {| formData := {| githubPrUrl := EmptyString; jiraTicketId := Some EmptyString |};
     errors := no_errors;
     touched := ∅;
     isSubmitting := false |}.

Definition submit_rejected (error_message : string) (st : FormState) : FormState :=
  {| formData := formData st;
     errors := {| err_githubPrUrl := None; err_jiraTicketId := None;
                  general := Some error_message |};
     touched := touched st;
     isSubmitting := false |}.

Definition isFormValid (st : FormState) : bool :=
  (keys_length (validateForm (formData st)) =? 0)%nat.

(** The submit button is enabled exactly when [canSubmit] holds. *)
Definition canSubmit (props : InputFormProps) (st : FormState) : bool :=
  isFormValid st && negb (isSubmitting st) && negb (loading props) && negb (disabled props).

End InputForm.

(** ** components/SummaryDisplay.tsx *)

Module SummaryDisplay.

(** Which of the four renderings the component returns. *)
Inductive View :=
| ViewLoading
| ViewError (message : string)
| ViewEmpty
| ViewLoaded (summary : Api.JSON).

Definition render (summary : option Api.JSON) (loading : bool) (error : option string)
  : View :=
  if loading then ViewLoading
  else if JS.truthy error then ViewError (default EmptyString error)
  else match summary with
       | None => ViewEmpty
       | Some s => ViewLoaded s
       end.

(** [toggleSection]: the set of expanded sections after a click on the
    section [sectionKey]. *)
Definition toggleSection (sectionKey : string) (prev : gset string) : gset string :=
  if decide (sectionKey ∈ prev)
  then prev ∖ {[ sectionKey ]}
  else prev ∪ {[ sectionKey ]}.

End SummaryDisplay.

(** ** App.tsx *)

Module App.

(** The network side of [handleSummaryRequest]: the call
    [apiClient.generateSummary(request)]. *)
Definition handleSummaryRequest (w : Api.World) (env : Z -> Api.Attempt)
    (formData : InputForm.FormData) : Api.Run :=
  let request :=
    {| Api.githubPrUrl := InputForm.githubPrUrl formData;
       Api.jiraTicketId := InputForm.jiraTicketId formData |} in
  Api.generateSummary w env request.

(** Submitting the form that [App] renders with
    [onSubmit={handleSummaryRequest}]: the network events it causes. *)
Definition submit (props : InputForm.InputFormProps) (st : InputForm.FormState)
    (w : Api.World) (env : Z -> Api.Attempt) : list Api.Event :=
  match InputForm.handleSubmit props st with
  | InputForm.Submits cleanData _ => Api.events (handleSummaryRequest w env cleanData)
  | _ => []
  end.

(** *** Application state *)

Record AppState := {
  summary : option Api.JSON;
  loading : bool;
  error : option string;
  lastRequest : option InputForm.FormData
}.

Inductive LoadingState := idle | validating | generating | completing.

Inductive HealthStatus := unknown | healthy | unhealthy.

Definition initial : AppState :=
  {| summary := None; loading := false; error := None; lastRequest := None |}.

(** [error.message]; the text of an error raised by the engine itself is
    the engine's. *)
Definition message_of (engine_text : string) (error : Api.JsError) : string :=
  match error with
  | Api.APIErr e => Api.err_message e
  | Api.TypeErr msg => msg
  | Api.AbortErr => engine_text
  | Api.SyntaxErr => engine_text
  end.

(** [error instanceof K] for the classes of the API client; every instance
    is an [APIClientError]. *)
Definition instance_of (k : Api.ErrorClass) (error : Api.JsError) : option Api.APIClientError :=
  match error with
  | Api.APIErr e =>
      match k, Api.class e with
      | Api.ClsAPIClientError, _ => Some e
      | Api.ClsValidationAPIError, Api.ClsValidationAPIError => Some e
      | Api.ClsNetworkError, Api.ClsNetworkError => Some e
      | Api.ClsTimeoutError, Api.ClsTimeoutError => Some e
      | _, _ => None
      end
  | _ => None
  end.

(** [`${error.statusCode}`] *)
Definition status_text (s : option Z) : string :=
  match s with
  | Some n => JS.number_to_string n
  | None => "undefined"
  end.

Definition getErrorMessage (engine_text : string) (error : Api.JsError) : string :=
  match instance_of Api.ClsValidationAPIError error with
  | Some e =>
      let fieldErrors :=
        String.concat ", "
          (map (fun fe => Api.field fe +:+ ": " +:+ Api.field_message fe)
               (default [] (Api.validationErrors e))) in
      "Validation Error: " +:+ fieldErrors
  | None =>
  match instance_of Api.ClsNetworkError error with
  | Some _ =>
      "Unable to connect to the server. Please check your internet connection and try again."
  | None =>
  match instance_of Api.ClsTimeoutError error with
  | Some _ => "The request timed out. The server may be busy. Please try again."
  | None =>
  match instance_of Api.ClsAPIClientError error with
  | Some e =>
      match Api.statusCode e with
      | Some 400 => "Invalid request: " +:+ Api.err_message e
      | Some 401 => "Authentication required. Please refresh the page and try again."
      | Some 403 => "Access denied. You may not have permission to perform this action."
      | Some 404 => "Service not found. The API may be temporarily unavailable."
      | Some 429 => "Too many requests. Please wait a moment before trying again."
      | Some 500 => "Internal server error. Please try again later."
      | Some 502 | Some 503 | Some 504 =>
          "Service temporarily unavailable. Please try again in a few moments."
      | s => "Server error (" +:+ status_text s +:+ "): " +:+ Api.err_message e
      end
  | None =>
      if JS.truthy (Some (message_of engine_text error))
      then message_of engine_text error
      else "An unexpected error occurred. Please try again."
  end end end end.

(** The state [handleSummaryRequest] sets before it calls the client, and
    the state it sets once the call has settled; [loadingState] is [idle]
    again in both cases. *)
Definition request_started (formData : InputForm.FormData) (st : AppState) : AppState :=
  {| summary := summary st; loading := true; error := None;
     lastRequest := Some formData |}.

Definition request_settled (engine_text : string) (outcome : Api.Settled)
    (st : AppState) : AppState :=
  match outcome with
  | Api.Resolved s =>
      {| summary := Some s; loading := false; error := None;
         lastRequest := lastRequest st |}
  | Api.Rejected e =>
      {| summary := None; loading := false;
         error := Some (getErrorMessage engine_text e);
         lastRequest := lastRequest st |}
  end.

(** [handleSummaryRequest] from start to end: the run of the client call
    and the state left behind. *)
Definition summary_request (engine_text : string) (w : Api.World)
    (env : Z -> Api.Attempt) (formData : InputForm.FormData) (st : AppState)
  : Api.Run * AppState :=
  let run := handleSummaryRequest w env formData in
  (run, request_settled engine_text (Api.settled run) (request_started formData st)).

(** [handleRetry]: nothing happens without a last request. *)
Definition handleRetry (engine_text : string) (w : Api.World)
    (env : Z -> Api.Attempt) (st : AppState) : option (Api.Run * AppState) :=
  match lastRequest st with
  | Some formData => Some (summary_request engine_text w env formData st)
  | None => None
  end.

Definition handleNewSummary (st : AppState) : AppState := initial.

Definition getLoadingMessage (l : LoadingState) : string :=
  match l with
  | validating => "Validating request..."
  | generating => "Analyzing PR and generating summary..."
  | completing => "Finalizing summary..."
  | idle => "Processing..."
  end.

(** [checkAPIHealth]: the health status after the probe [apiClient.ping()]
    has settled. *)
Definition checkAPIHealth (w : Api.World) (env : Z -> Api.Attempt) : HealthStatus :=
  match Api.settled (Api.ping w env) with
  | Api.Resolved _ => healthy
  | Api.Rejected _ => unhealthy
  end.

(** The props [App] passes to [InputForm]. *)
Definition form_props (st : AppState) (h : HealthStatus) : InputForm.InputFormProps :=
  {| InputForm.loading := loading st;
     InputForm.disabled := match h with unhealthy => true | _ => false end |}.

(** The rendering of [<SummaryDisplay summary={appState.summary}
    loading={appState.loading} error={appState.error || undefined} />]. *)
Definition summary_view (st : AppState) : SummaryDisplay.View :=
  SummaryDisplay.render (summary st) (loading st) (JS.or_undefined (error st)).

End App.

(** ** Scenarios

    Concrete clients, responses and attempt scripts on which the properties
    below are exercised. *)

Module Scenario.
Import Api.

Definition penv : ProcessEnv :=
  {| REACT_APP_API_BASE_URL := None; NODE_ENV := None |}.

(** A client with the default configuration: 3 retries, 1000 ms base
    delay, exponential back-off. *)
Definition client0 : World := new_APIClient penv no_overrides.

(** The same client while an earlier call is still in flight. *)
Definition client_busy : World := run_action client0 ActNewCall.

Definition clock : string := "2025-10-13T00:00:00.000Z".

(** An attempt during which no other caller does anything. *)
Definition quiet (r : FetchResult) : Attempt :=
  {| while_pending := []; settles := r; while_sleeping := []; now := clock |}.

(** An attempt during which [cancelRequests()] is invoked while the race
    is pending. *)
Definition cancelled (r : FetchResult) : Attempt :=
  {| while_pending := [ActCancel]; settles := r; while_sleeping := []; now := clock |}.


Definition always (a : Attempt) : Z -> Attempt := fun _ => a.

Definition plain (code : Z) (text : string) : Response :=
  {| status := code; statusText := text; json := None |}.

Definition no_error_reading : APIError :=
  {| error := EmptyString; message := EmptyString; timestamp := EmptyString; correlation_id := None;
     path := None; method := None; details := None; errors := None |}.

Definition summary_json : JSON := "{}".

Definition success : Response :=
  {| status := 200; statusText := "OK";
     json := Some {| as_error := no_error_reading; as_payload := summary_json |} |}.

Definition invalid_url_body : APIError :=
  {| error := "VALIDATION_ERROR"; message := "Invalid request"; timestamp := clock;
     correlation_id := Some "abc"; path := None; method := None; details := None;
     errors := Some [ {| field := "github_pr_url"; field_message := "not a PR URL";
                         code := "invalid"; value := None |} ] |}.

Definition bad_request : Response :=
  {| status := 400; statusText := "Bad Request";
     json := Some {| as_error := invalid_url_body; as_payload := EmptyString |} |}.

(** 500, 500, then 200. *)
Definition flaky (retryCount : Z) : Attempt :=
  if retryCount <? 2 then quiet (Responds (plain 500 "Internal Server Error"))
  else quiet (Responds success).

Definition widgets_request : SummaryRequest :=
  {| githubPrUrl := " https://github.com/acme/widgets/pull/42 ";
     jiraTicketId := Some "   " |}.

Definition invalid_ticket_form : InputForm.FormState :=
  {| InputForm.formData :=
       {| InputForm.githubPrUrl := "https://github.com/acme/widgets/pull/42";
          InputForm.jiraTicketId := Some "invalid ticket!" |};
     InputForm.errors := InputForm.no_errors;
     InputForm.touched := ∅;
     InputForm.isSubmitting := false |}.

Definition enabled : InputForm.InputFormProps :=
  {| InputForm.loading := false; InputForm.disabled := false |}.

Definition faster : APIClientConfig :=
  {| opt_baseURL := None; opt_timeout := Some 50; opt_retries := Some 1;
     opt_retryDelay := None; opt_retryBackoff := Some false;
     opt_enableLogging := None |}.



(** 503 on every attempt, with a different status text each time. *)
Definition unavailable (retryCount : Z) : Attempt :=
  quiet (Responds (plain 503 ("attempt " +:+ JS.number_to_string retryCount))).


(** A transport failure as Safari words it, and a 200 response whose body
    is not JSON. *)
Definition load_failed : Attempt := quiet (FetchFails "Load failed").


(** A program whose singleton was created with overrides and has a call in
    flight. *)
Definition program_busy : Program :=
  {| apiClientInstance := Some (this (run_action (updateConfig faster client0) ActNewCall));
     controllers := [false] |}.


Definition valid_form : InputForm.FormState :=
  {| InputForm.formData :=
       {| InputForm.githubPrUrl := " https://github.com/acme/widgets/pull/42 ";
          InputForm.jiraTicketId := Some " PROJ-7" |};
     InputForm.errors := InputForm.no_errors;
     InputForm.touched := ∅;
     InputForm.isSubmitting := false |}.


(** 503 on every attempt, while other calls start and cancellations are
    requested during the sleeps. *)
Definition crowded (retryCount : Z) : Attempt :=
  {| while_pending := [ActNewCall];
     settles := Responds (plain 503 "Service Unavailable");
     while_sleeping := [ActCancel; ActNewCall];
     now := clock |}.


(** A 503 response with a JSON error body. *)
Definition overloaded_body : APIError :=
  {| error := "SERVICE_UNAVAILABLE"; message := "Backend overloaded"; timestamp := clock;
     correlation_id := Some "xyz"; path := None; method := None; details := None;
     errors := None |}.

Definition overloaded : Response :=
  {| status := 503; statusText := "Service Unavailable";
     json := Some {| as_error := overloaded_body; as_payload := EmptyString |} |}.

(** The first attempt receives the 503, and [cancelRequests()] is invoked
    while its error body is read; the second attempt receives a 200. *)
Definition cancelled_reading_error (retryCount : Z) : Interleaved.Attempt :=
  if retryCount =? 0 then
    {| Interleaved.script := quiet (Responds overloaded);
       Interleaved.while_reading := [ActCancel] |}
  else
    {| Interleaved.script := quiet (Responds success);
       Interleaved.while_reading := [] |}.

(** The same cancellation while the body of a 200 response is read. *)
Definition cancelled_reading_success (retryCount : Z) : Interleaved.Attempt :=
  {| Interleaved.script := quiet (Responds success);
     Interleaved.while_reading := [ActCancel] |}.

(** A request with a ticket id, both fields padded with blanks. *)
Definition ticketed_request : SummaryRequest :=
  {| githubPrUrl := "  https://github.com/acme/widgets/pull/42 ";
     jiraTicketId := Some " PROJ-123  " |}.


End Scenario.

(** ** Predicates used in the properties *)

Module Spec.
Import Api.

(** A controller is detached once the client no longer refers to it: its
    signal can no longer be aborted through the client. *)
Definition detached (w : World) (c : nat) : Prop :=
  abortController (this w) <> Some c /\ signals w !! c = Some false.

(** A property named in a partial configuration takes the given value; one
    that is not named keeps its previous value. *)
Definition merged {A : Type} (named : option A) (previous current : A) : Prop :=
  match named with
  | Some v => current = v
  | None => current = previous
  end.

(** Whether [cancelRequests()] is the first thing that happens while the
    race of an attempt is pending. *)
Definition cancelled_first (a : Attempt) : bool :=
  match while_pending a with
  | ActCancel :: _ => true
  | _ => false
  end.

(** Two attempt scripts that differ at most in what cannot reach the
    attempt: what happens after the first action of the pending phase, and
    what happens during the sleep. *)
Definition same_script (a b : Attempt) : Prop :=
  cancelled_first a = cancelled_first b /\ settles a = settles b /\ now a = now b.

(** An event without the reference to its abort controller. *)
Definition erase_signal (ev : Event) : Event :=
  match ev with
  | EvFetch url init deadline =>
      EvFetch url
        {| init_method := init_method init; init_body := init_body init;
           headers := headers init; signal := None |}
        deadline
  | EvSleep ms => EvSleep ms
  end.

(** The sum of a list of durations. *)
Definition total (ds : list Z) : Z := foldr Z.add 0 ds.


(** Two partial configurations applied one after the other, as one partial
    configuration: the later one wins where both name a property. *)
Definition override (a b : APIClientConfig) : APIClientConfig :=
  {| opt_baseURL := from_option Some (opt_baseURL a) (opt_baseURL b);
     opt_timeout := from_option Some (opt_timeout a) (opt_timeout b);
     opt_retries := from_option Some (opt_retries a) (opt_retries b);
     opt_retryDelay := from_option Some (opt_retryDelay a) (opt_retryDelay b);
     opt_retryBackoff := from_option Some (opt_retryBackoff a) (opt_retryBackoff b);
     opt_enableLogging := from_option Some (opt_enableLogging a) (opt_enableLogging b) |}.


(** Every character of a string satisfies a test. *)
Fixpoint all_chars (p : ascii -> bool) (s : string) : bool :=
  match s with
  | EmptyString => true
  | String c s' => p c && all_chars p s'
  end.

(** An ASCII letter of either case, a decimal digit, a character other
    than the slash. *)
Definition is_letter (c : ascii) : bool :=
  RegExp.between 65 90 c || RegExp.between 97 122 c.

Definition is_digit (c : ascii) : bool := RegExp.between 48 57 c.

Definition not_slash (c : ascii) : bool := negb (bool_decide (c = "/"%char)).

(** The strings a regular expression denotes. *)
Inductive matches : RegExp.regex -> string -> Prop :=
| matches_eps : matches RegExp.Eps EmptyString
| matches_class p c : p c = true -> matches (RegExp.Class p) (String c EmptyString)
| matches_cat r1 r2 s1 s2 :
    matches r1 s1 -> matches r2 s2 -> matches (RegExp.Cat r1 r2) (s1 +:+ s2)
| matches_alt_l r1 r2 s : matches r1 s -> matches (RegExp.Alt r1 r2) s
| matches_alt_r r1 r2 s : matches r2 s -> matches (RegExp.Alt r1 r2) s
| matches_star_nil r : matches (RegExp.Star r) EmptyString
| matches_star_cons r s1 s2 :
    matches r s1 -> matches (RegExp.Star r) s2 -> matches (RegExp.Star r) (s1 +:+ s2).


(** The error shown under a field. *)
Definition shown_error (f : InputForm.FieldName) (st : InputForm.FormState)
  : option string :=
  JS.or_undefined (InputForm.get_error f (InputForm.errors st)).

(** A form state is coherent when a touched field shows exactly the
    validation error of the value it holds, and an untouched field shows no
    error. *)
Definition coherent (st : InputForm.FormState) : Prop :=
  forall f,
    shown_error f st
    = if InputForm.is_touched f (InputForm.touched st)
      then InputForm.validateField f (InputForm.field_value f (InputForm.formData st))
      else None.


(** The controllers whose signals the attempts of a run were given, in
    order. *)
Fixpoint fetch_signals (evs : list Event) : list nat :=
  match evs with
  | [] => []
  | EvFetch _ init _ :: evs' =>
      match signal init with
      | Some c => c :: fetch_signals evs'
      | None => fetch_signals evs'
      end
  | EvSleep _ :: evs' => fetch_signals evs'
  end.

(** A reader for the bodies that [generateSummary] sends: a JSON object
    whose values are strings, the property [github_pr_url] first and the
    property [jira_ticket_id], if any, second.  Strings are read as RFC 8259
    writes them: up to the closing quotation mark, a reverse solidus
    starting an escape, control characters refused when not escaped. *)
Definition hex_value (c : ascii) : option nat :=
  let n := nat_of_ascii c in
  (if (48 <=? n) && (n <=? 57) then Some (n - 48)
   else if (97 <=? n) && (n <=? 102) then Some (n - 87)
   else if (65 <=? n) && (n <=? 70) then Some (n - 55)
   else None)%nat.

Definition escaped (e : ascii) : option ascii :=
  let n := nat_of_ascii e in
  (if n =? 98 then Some (ascii_of_nat 8)          (* \b *)
   else if n =? 116 then Some (ascii_of_nat 9)    (* \t *)
   else if n =? 110 then Some (ascii_of_nat 10)   (* \n *)
   else if n =? 102 then Some (ascii_of_nat 12)   (* \f *)
   else if n =? 114 then Some (ascii_of_nat 13)   (* \r *)
   else if n =? 34 then Some e                    (* quotation mark *)
   else if n =? 92 then Some e                    (* reverse solidus *)
   else if n =? 47 then Some e                    (* solidus *)
   else None)%nat.

Definition read_more (c : ascii) (r : option (string * string)) : option (string * string) :=
  match r with
  | Some (s, rest) => Some (String c s, rest)
  | None => None
  end.

(** The characters of a string and what follows its closing quotation
    mark. *)
Fixpoint read_chars (s : string) : option (string * string) :=
  match s with
  | EmptyString => None
  | String c rest =>
      let n := nat_of_ascii c in
      if (n =? 34)%nat then Some (EmptyString, rest)
      else if (n =? 92)%nat then
        match rest with
        | EmptyString => None
        | String e rest1 =>
            if (nat_of_ascii e =? 117)%nat then      (* \uXXXX *)
              match rest1 with
              | String a (String b (String h (String l rest2))) =>
                  match hex_value a, hex_value b, hex_value h, hex_value l with
                  | Some 0%nat, Some 0%nat, Some high, Some low =>
                      read_more (ascii_of_nat (16 * high + low)) (read_chars rest2)
                  | _, _, _, _ => None
                  end
              | _ => None
              end
            else
              match escaped e with
              | Some d => read_more d (read_chars rest1)
              | None => None
              end
        end
      else if (n <? 32)%nat then None
      else read_more c (read_chars rest)
  end.

Definition read_string (s : string) : option (string * string) :=
  match s with
  | String c rest => if (nat_of_ascii c =? 34)%nat then read_chars rest else None
  | EmptyString => None
  end.

(** [expect p s]: [s] without its prefix [p]. *)
Fixpoint expect (p s : string) : option string :=
  match p, s with
  | EmptyString, _ => Some s
  | String c p', String d s' => if Ascii.eqb c d then expect p' s' else None
  | String _ _, EmptyString => None
  end.

Definition read_property (name s : string) : option (string * string) :=
  match read_string s with
  | Some (key, rest) =>
      if String.eqb key name then
        match expect ":" rest with
        | Some rest' => read_string rest'
        | None => None
        end
      else None
  | None => None
  end.

Definition read_body (s : string) : option CleanRequest :=
  match expect "{" s with
  | None => None
  | Some s1 =>
      match read_property "github_pr_url" s1 with
      | None => None
      | Some (url, s2) =>
          if String.eqb s2 "}" then
            Some {| github_pr_url := url; jira_ticket_id := None |}
          else
            match expect "," s2 with
            | None => None
            | Some s3 =>
                match read_property "jira_ticket_id" s3 with
                | Some (ticket, s4) =>
                    if String.eqb s4 "}" then
                      Some {| github_pr_url := url; jira_ticket_id := Some ticket |}
                    else None
                | None => None
                end
            end
      end
  end.

End Spec.

(** * Properties *)

Import Api Spec.

(** ** Unfolding [request] *)

Lemma request_unfold w env endpoint options retryCount :
  request w env endpoint options retryCount =
  let i := invoke w (env retryCount) endpoint options retryCount in
  match step i with
  | Return data => {| settled := Resolved data; events := [fetched i]; final := after i |}
  | Throw e => {| settled := Rejected e; events := [fetched i]; final := after i |}
  | Retry delay =>
      let r := request (run_actions (while_sleeping (env retryCount)) (after i))
                 env endpoint options (retryCount + 1) in
      {| settled := settled r;
         events := fetched i :: EvSleep delay :: events r;
         final := final r |}
  end.
Proof.
  funelim (request w env endpoint options retryCount); cbn zeta;
    match goal with E : step _ = _ |- _ => rewrite E end; reflexivity.
Qed.

(** Induction along the recursive calls of [request]. *)
Lemma request_induction env endpoint options (P : World -> Z -> Prop) :
  (forall w retryCount,
      (forall delay,
          step (invoke w (env retryCount) endpoint options retryCount) = Retry delay ->
          P (run_actions (while_sleeping (env retryCount))
               (after (invoke w (env retryCount) endpoint options retryCount)))
            (retryCount + 1)) ->
      P w retryCount) ->
  forall w retryCount, P w retryCount.
Proof.
  intros step_case w retryCount.
  remember (Z.to_nat (retries (config (this w)) - retryCount)) as budget eqn:Hb.
  revert w retryCount Hb.
  induction budget as [budget IH] using lt_wf_ind; intros w retryCount Hb.
  apply step_case. intros delay Hretry.
  apply invoke_Retry in Hretry.
  eapply IH; [|reflexivity].
  rewrite run_actions_config, invoke_after_config. lia.
Qed.

Lemma fetched_invoke w a endpoint options retryCount :
  fetched (invoke w a endpoint options retryCount) =
  EvFetch (baseURL (config (this w)) +:+ endpoint)
    {| init_method := init_method options;
       init_body := init_body options;
       headers := [("Content-Type", "application/json"); ("Accept", "application/json")]
                    ++ headers options;
       signal := Some (length (signals w)) |}
    (timeout (config (this w))).
Proof. reflexivity. Qed.

Lemma step_invoke w a endpoint options retryCount :
  step (invoke w a endpoint options retryCount) =
  if signal_aborted w a
  then catch_block (config (this w)) retryCount AbortErr
  else match try_block a with
       | Resolved data => Return data
       | Rejected error => catch_block (config (this w)) retryCount error
       end.
Proof.
  unfold invoke, signal_aborted; cbn.
  rewrite run_actions_config; cbn.
  now destruct (aborted _ _).
Qed.

Lemma attempts_fetch url init deadline evs :
  attempts (EvFetch url init deadline :: evs) = 1 + attempts evs.
Proof.
  unfold attempts. rewrite filter_cons_True by exact I.
  cbn [length]. lia.
Qed.

Lemma attempts_sleep ms evs : attempts (EvSleep ms :: evs) = attempts evs.
Proof. unfold attempts. now rewrite filter_cons_False by (intros []). Qed.

(** From any attempt counter, the attempts still made fit the remaining
    budget. *)
Lemma request_attempts_from env endpoint options w retryCount :
  1 <= attempts (events (request w env endpoint options retryCount))
    <= Z.max 1 (retries (config (this w)) - retryCount + 1).
Proof.
  revert w retryCount.
  refine (request_induction env endpoint options _ _); intros w retryCount IH.
  rewrite request_unfold; cbn zeta.
  destruct (step (invoke w (env retryCount) endpoint options retryCount))
    as [data|e|delay] eqn:Hstep; cbn [events];
    rewrite fetched_invoke, attempts_fetch; [change (attempts []) with 0; lia..|].
  rewrite attempts_sleep.
  specialize (IH delay eq_refl).
  rewrite run_actions_config, invoke_after_config in IH.
  apply invoke_Retry in Hstep. lia.
Qed.

Lemma invoke_Retry_delay w a endpoint options retryCount delay :
  step (invoke w a endpoint options retryCount) = Retry delay ->
  delay = delay_for (config (this w)) retryCount.
Proof.
  rewrite step_invoke. unfold catch_block.
  destruct (signal_aborted w a); cbn; [discriminate|].
  destruct (try_block a) as [data|error]; [discriminate|].
  destruct (is_AbortError error); [discriminate|].
  destruct (is_fetch_TypeError error); [discriminate|].
  destruct (instanceof_APIClientError error); [|discriminate].
  destruct (_ && _); [|discriminate].
  now intros [= <-].
Qed.

(** The [k]-th sleep of a run that starts at [retryCount] lasts
    [delay_for (retryCount + k)]. *)
Lemma request_delays_from env endpoint options w retryCount (k : nat) d :
  delays (events (request w env endpoint options retryCount)) !! k = Some d ->
  d = delay_for (config (this w)) (retryCount + Z.of_nat k).
Proof.
  revert w retryCount k d.
  refine (request_induction env endpoint options _ _); intros w retryCount IH k d.
  rewrite request_unfold; cbn zeta.
  destruct (step (invoke w (env retryCount) endpoint options retryCount))
    as [data|e|delay] eqn:Hstep; cbn [events];
    rewrite fetched_invoke; cbn [delays]; [discriminate..|].
  destruct k as [|k]; cbn [lookup list_lookup].
  - intros [= <-]. apply invoke_Retry_delay in Hstep.
    now rewrite Z.add_0_r.
  - intros Hk. apply (IH delay eq_refl) in Hk.
    rewrite run_actions_config, invoke_after_config in Hk.
    rewrite Hk. f_equal. lia.
Qed.

(** There is one sleep between two consecutive attempts. *)
Lemma request_delays_length env endpoint options w retryCount :
  Z.of_nat (length (delays (events (request w env endpoint options retryCount))))
  = attempts (events (request w env endpoint options retryCount)) - 1.
Proof.
  revert w retryCount.
  refine (request_induction env endpoint options _ _); intros w retryCount IH.
  rewrite request_unfold; cbn zeta.
  destruct (step (invoke w (env retryCount) endpoint options retryCount))
    as [data|e|delay] eqn:Hstep; cbn [events];
    rewrite fetched_invoke, attempts_fetch; cbn [delays];
    [change (attempts []) with 0; cbn; lia..|].
  rewrite attempts_sleep. specialize (IH delay eq_refl).
  cbn [length]. lia.
Qed.

(** Every attempt of a call fetches the same URL with the caller's method
    and body. *)
Lemma request_fetch_events env endpoint options w retryCount ev :
  ev ∈ events (request w env endpoint options retryCount) ->
  is_fetch ev = true ->
  exists c,
    ev = EvFetch (baseURL (config (this w)) +:+ endpoint)
           {| init_method := init_method options;
              init_body := init_body options;
              headers := [("Content-Type", "application/json");
                          ("Accept", "application/json")] ++ headers options;
              signal := Some c |}
           (timeout (config (this w))).
Proof.
  revert w retryCount.
  refine (request_induction env endpoint options _ _); intros w retryCount IH.
  rewrite request_unfold; cbn zeta.
  destruct (step (invoke w (env retryCount) endpoint options retryCount))
    as [data|e|delay] eqn:Hstep; cbn [events]; rewrite fetched_invoke.
  1,2: intros ->%list_elem_of_singleton _; eauto.
  rewrite !elem_of_cons.
  intros [->|[->|Hin]] Hfetch; [eauto|discriminate|].
  destruct (IH delay eq_refl Hin Hfetch) as [c ->].
  rewrite run_actions_config, invoke_after_config. eauto.
Qed.

(** *** Abort signals *)

Lemma aborted_true w c : aborted w c = true <-> signals w !! c = Some true.
Proof.
  unfold aborted. destruct (signals w !! c) as [[]|]; cbn; split; congruence.
Qed.

Lemma run_action_aborted w a c :
  aborted w c = true -> aborted (run_action w a) c = true.
Proof.
  rewrite !aborted_true. intros Hc. destruct a; cbn.
  - unfold cancelRequests. destruct (abortController (this w)) as [c'|]; [|exact Hc].
    cbn. destruct (decide (c' = c)) as [->|Hne].
    + apply list_lookup_insert_eq. eapply lookup_lt_Some, Hc.
    + now rewrite list_lookup_insert_ne.
  - rewrite lookup_app_l; [exact Hc|]. eapply lookup_lt_Some, Hc.
Qed.

Lemma run_actions_aborted acts w c :
  aborted w c = true -> aborted (run_actions acts w) c = true.
Proof.
  revert w; induction acts as [|a acts IH]; intros w Hc; [exact Hc|].
  cbn. apply IH, run_action_aborted, Hc.
Qed.

Lemma run_action_detached w a c : detached w c -> detached (run_action w a) c.
Proof.
  intros [Hslot Hc]. destruct a; cbn.
  - unfold cancelRequests. destruct (abortController (this w)) as [c'|] eqn:Hs;
      [|split; [now rewrite Hs|exact Hc]].
    split; [discriminate|]. cbn.
    rewrite list_lookup_insert_ne; [exact Hc|congruence].
  - split; cbn.
    + intros [= Heq]. apply lookup_lt_Some in Hc. lia.
    + rewrite lookup_app_l; [exact Hc|]. eapply lookup_lt_Some, Hc.
Qed.

Lemma run_actions_detached acts w c :
  detached w c -> detached (run_actions acts w) c.
Proof.
  revert w; induction acts as [|a acts IH]; intros w Hd; [exact Hd|].
  cbn. apply IH, run_action_detached, Hd.
Qed.

Lemma signal_aborted_nil w a : while_pending a = [] -> signal_aborted w a = false.
Proof.
  unfold signal_aborted, aborted; cbn. intros ->; cbn.
  now rewrite lookup_app_r, Nat.sub_diag.
Qed.

(** [cancelRequests()] as the first thing that happens while the race is
    pending aborts the attempt's signal. *)
Lemma signal_aborted_cancel w a rest :
  while_pending a = ActCancel :: rest -> signal_aborted w a = true.
Proof.
  unfold signal_aborted; cbn. intros ->; cbn.
  apply run_actions_aborted, aborted_true; cbn.
  apply list_lookup_insert_eq. rewrite length_app; cbn. lia.
Qed.

(** Once another call has started, the attempt's controller is detached. *)
Lemma signal_aborted_new_call w a rest :
  while_pending a = ActNewCall :: rest -> signal_aborted w a = false.
Proof.
  unfold signal_aborted; cbn. intros ->; cbn.
  match goal with |- aborted (fold_left run_action rest ?w1) ?c = false =>
    change (fold_left run_action rest w1) with (run_actions rest w1);
    destruct (run_actions_detached rest w1 c) as [_ Hc] end.
  - split; cbn.
    + intros [= Heq]. rewrite length_app in Heq; cbn in Heq. lia.
    + rewrite lookup_app_l by (rewrite length_app; cbn; lia).
      now rewrite lookup_app_r, Nat.sub_diag.
  - unfold aborted. now rewrite Hc.
Qed.

(** ** The retry controller *)

(** C1.  A logical call (attempt counter starting at 0) performs at most
    [retries + 1] network attempts, whatever the attempts produce.  The
    recursion is well founded: an invocation recurses only when
    [retryCount < retries], it recurses with [retryCount + 1], and the
    configuration is the same at the recursive call. *)
Theorem request_attempts_bound w env endpoint options :
  0 <= retries (config (this w)) ->
  attempts (events (request w env endpoint options 0)) <= retries (config (this w)) + 1
  /\ (forall w1 retryCount delay,
         step (invoke w1 (env retryCount) endpoint options retryCount) = Retry delay ->
         let i := invoke w1 (env retryCount) endpoint options retryCount in
         let w2 := run_actions (while_sleeping (env retryCount)) (after i) in
         retryCount < retries (config (this w1))
         /\ config (this w2) = config (this w1)
         /\ events (request w1 env endpoint options retryCount)
            = fetched i :: EvSleep delay
                :: events (request w2 env endpoint options (retryCount + 1))).
Proof.
  intros Hretries. split.
  - pose proof (request_attempts_from env endpoint options w 0). lia.
  - intros w1 retryCount delay Hstep i w2. split; [|split].
    + eapply invoke_Retry, Hstep.
    + subst w2 i. now rewrite run_actions_config, invoke_after_config.
    + subst w2 i. rewrite request_unfold; cbn zeta. now rewrite Hstep.
Qed.

Lemma request_attempts_bound_witness :
  0 <= retries (config (this Scenario.client0))
  /\ attempts (events (request Scenario.client0
                         (Scenario.always (Scenario.quiet (Responds (Scenario.plain 503 "Service Unavailable"))))
                         "/health" no_options 0))
     <= retries (config (this Scenario.client0)) + 1.
Proof.
  split; [cbn; lia|].
  apply (request_attempts_bound Scenario.client0); cbn; lia.
Defined.

(** C4.  An invocation that retries sleeps for [retryDelay * 2^retryCount]
    when [retryBackoff] is set and for [retryDelay] otherwise, and then
    recurses with [retryCount + 1]; so the [k]-th sleep of a logical call
    lasts [retryDelay * 2^k], respectively [retryDelay]. *)
Theorem retry_backoff_delay w env endpoint options retryCount delay :
  step (invoke w (env retryCount) endpoint options retryCount) = Retry delay ->
  let i := invoke w (env retryCount) endpoint options retryCount in
  let next := request (run_actions (while_sleeping (env retryCount)) (after i))
                env endpoint options (retryCount + 1) in
  delay = (if retryBackoff (config (this w))
           then retryDelay (config (this w)) * 2 ^ retryCount
           else retryDelay (config (this w)))
  /\ request w env endpoint options retryCount
     = {| settled := settled next;
          events := fetched i :: EvSleep delay :: events next;
          final := final next |}
  /\ (forall w0 (k : nat) d,
         delays (events (request w0 env endpoint options 0)) !! k = Some d ->
         d = if retryBackoff (config (this w0))
             then retryDelay (config (this w0)) * 2 ^ Z.of_nat k
             else retryDelay (config (this w0))).
Proof.
  intros Hstep i next. split; [|split].
  - apply invoke_Retry_delay in Hstep. exact Hstep.
  - subst next i. rewrite request_unfold; cbn zeta. now rewrite Hstep.
  - intros w0 k d Hk. apply request_delays_from in Hk. exact Hk.
Qed.

Lemma retry_backoff_delay_witness :
  delays (events (request Scenario.client0 Scenario.flaky "/health" no_options 0))
  = [1000; 2000]
  /\ 1000 = (if retryBackoff (config (this Scenario.client0))
             then retryDelay (config (this Scenario.client0)) * 2 ^ 0
             else retryDelay (config (this Scenario.client0))).
Proof.
  split; [reflexivity|].
  apply (retry_backoff_delay Scenario.client0 Scenario.flaky "/health" no_options 0 1000).
  reflexivity.
Defined.

(** An aborted attempt rejects with the cancellation error and is the last
    event of the call. *)
Lemma cancelled_attempt_terminal_aux w env endpoint options retryCount :
  signal_aborted w (env retryCount) = true ->
  request w env endpoint options retryCount
  = {| settled := Rejected (APIErr (new_APIClientError "Request was cancelled" (Some 0)
                                      (Some "CANCELLED") None None));
       events := [fetched (invoke w (env retryCount) endpoint options retryCount)];
       final := after (invoke w (env retryCount) endpoint options retryCount) |}.
Proof.
  intros Haborted. rewrite request_unfold; cbn zeta.
  now rewrite step_invoke, Haborted.
Qed.

(** X23.  An attempt whose signal has been aborted when the race settles is
    not retried: the call rejects with the terminal ['Request was cancelled']
    error after that attempt, with no sleep and no further attempt,
    whatever the retry budget and however the race would have settled.
    The [catch] block throws on an [AbortError] for every configuration
    and attempt counter; the retry test is not consulted, and it would
    have accepted the error that is thrown. *)
Theorem cancelled_attempt_is_terminal w env endpoint options retryCount :
  signal_aborted w (env retryCount) = true ->
  let run := request w env endpoint options retryCount in
  let cancellation :=
    new_APIClientError "Request was cancelled" (Some 0) (Some "CANCELLED") None None in
  settled run = Rejected (APIErr cancellation)
  /\ events run = [fetched (invoke w (env retryCount) endpoint options retryCount)]
  /\ attempts (events run) = 1
  /\ delays (events run) = []
  /\ (forall cfg n, catch_block cfg n AbortErr = Throw (APIErr cancellation))
  /\ isRetryableError cancellation = true.
Proof.
  intros Haborted run cancellation. subst run cancellation.
  rewrite (cancelled_attempt_terminal_aux _ _ _ _ _ Haborted); cbn [settled events].
  rewrite fetched_invoke. repeat split; reflexivity.
Qed.

Lemma cancelled_attempt_is_terminal_witness :
  signal_aborted Scenario.client0 (Scenario.cancelled TimerFires) = true
  /\ attempts (events (request Scenario.client0
                         (Scenario.always (Scenario.cancelled TimerFires))
                         "/health" no_options 0)) = 1.
Proof.
  split; [reflexivity|].
  apply (cancelled_attempt_is_terminal Scenario.client0
           (Scenario.always (Scenario.cancelled TimerFires)) "/health" no_options 0).
  reflexivity.
Defined.

(** ** Error classification *)

Lemma isRetryableError_createAPIError status_code errorData :
  status_code <> 0 ->
  isRetryableError (createAPIError status_code errorData) = true
  <-> 500 <= status_code \/ status_code = 429.
Proof.
  intros Hnz. unfold createAPIError.
  destruct (Z.eqb_spec status_code 400) as [->|Hne400].
  - destruct (errors errorData); cbn; split; try discriminate; lia.
  - unfold isRetryableError; cbn.
    destruct (Z.eqb_spec status_code 0); [contradiction|].
    rewrite orb_true_iff, Z.leb_le, Z.eqb_eq. reflexivity.
Qed.

(** C3.  The error built from a received response with status [s] (a
    received response never has status 0) passes the retry test exactly
    when [s >= 500] or [s = 429], and with budget left the [catch] block
    retries exactly in that case.  A 404 on the
    first attempt ends the call at once: one attempt, no sleep, and the
    call rejects (with the error built from the response unless the
    attempt was cancelled). *)
Theorem http_error_retry_eligibility :
  (forall status_code errorData,
      status_code <> 0 ->
      isRetryableError (createAPIError status_code errorData) = true
      <-> 500 <= status_code \/ status_code = 429)
  /\ (forall cfg retryCount status_code errorData,
         status_code <> 0 ->
         retryCount < retries cfg ->
         (exists delay,
             catch_block cfg retryCount (APIErr (createAPIError status_code errorData))
             = Retry delay)
         <-> 500 <= status_code \/ status_code = 429)
  /\ (forall w env endpoint options response,
         settles (env 0) = Responds response ->
         status response = 404 ->
         let run := request w env endpoint options 0 in
         attempts (events run) = 1
         /\ delays (events run) = []
         /\ (exists e, settled run = Rejected e)
         /\ (signal_aborted w (env 0) = false ->
             settled run
             = Rejected (APIErr (createAPIError 404
                                   (parseErrorResponse (now (env 0)) response))))).
Proof.
  split; [exact isRetryableError_createAPIError|split].
  - intros cfg retryCount status_code errorData Hnz Hbudget.
    rewrite <- (isRetryableError_createAPIError status_code errorData Hnz).
    unfold catch_block; cbn.
    destruct (Z.ltb_spec retryCount (retries cfg)); [|lia]; cbn.
    destruct (isRetryableError _); split; eauto; try discriminate.
    intros [? [=]].
  - intros w env endpoint options response Hsettles H404 run. subst run.
    assert (Hcreate : forall d, isRetryableError (createAPIError 404 d) = false)
      by (intros d; unfold createAPIError; reflexivity).
    assert (Htry : try_block (env 0)
                   = Rejected (APIErr (createAPIError 404
                                 (parseErrorResponse (now (env 0)) response)))).
    { unfold try_block, ok. rewrite Hsettles, H404. reflexivity. }
    rewrite request_unfold; cbn zeta. rewrite step_invoke, fetched_invoke, Htry.
    unfold catch_block;
      cbn [is_AbortError is_fetch_TypeError instanceof_APIClientError].
    rewrite Hcreate, andb_false_r.
    destruct (signal_aborted w (env 0)); cbn [events settled];
      (split; [reflexivity|split; [reflexivity|split; [eauto|]]]);
      [discriminate|reflexivity].
Qed.

Lemma http_error_retry_eligibility_witness :
  isRetryableError (createAPIError 503 Scenario.no_error_reading) = true
  /\ attempts (events (request Scenario.client0
                         (Scenario.always (Scenario.quiet (Responds (Scenario.plain 404 "Not Found"))))
                         "/health" no_options 0)) = 1.
Proof.
  split.
  - apply (proj1 http_error_retry_eligibility 503 Scenario.no_error_reading); lia.
  - apply (proj2 (proj2 http_error_retry_eligibility) Scenario.client0
             (Scenario.always (Scenario.quiet (Responds (Scenario.plain 404 "Not Found"))))
             "/health" no_options (Scenario.plain 404 "Not Found"));
      reflexivity.
Defined.

(** C7.  For a received response whose status is outside [200, 299] the
    error body is the decoded JSON body, or, when the body does not decode,
    the body [{error, message, timestamp}] built from the status line.  The
    attempt fails with a [ValidationAPIError] exactly when the status is 400
    and that body has the property [errors], and otherwise with a plain
    [APIClientError] that carries the status. *)
Theorem error_response_classification a response :
  settles a = Responds response ->
  ~ (200 <= status response <= 299) ->
  let errorData := parseErrorResponse (now a) response in
  let err := createAPIError (status response) errorData in
  (forall d, json response = Some d -> errorData = as_error d)
  /\ (json response = None ->
      errorData
      = {| error := "HTTP Error";
           message := "HTTP " +:+ JS.number_to_string (status response)
                        +:+ " - " +:+ statusText response;
           timestamp := now a;
           correlation_id := None; path := None; method := None;
           details := None; errors := None |})
  /\ try_block a = Rejected (APIErr err)
  /\ (class err = ClsValidationAPIError
      <-> status response = 400 /\ errors errorData <> None)
  /\ (class err = ClsValidationAPIError ->
      statusCode err = Some 400
      /\ validationErrors err = errors errorData
      /\ err_message err = message errorData)
  /\ (class err <> ClsValidationAPIError ->
      class err = ClsAPIClientError
      /\ statusCode err = Some (status response)
      /\ err_message err = message errorData
      /\ errorCode err = Some (error errorData)).
Proof.
  intros Hsettles Hstatus errorData err.
  assert (Hok : ok response = false).
  { unfold ok. apply andb_false_iff. rewrite !Z.leb_gt. lia. }
  split; [|split; [|split]].
  - intros d Hd. subst errorData. unfold parseErrorResponse. now rewrite Hd.
  - intros Hd. subst errorData. unfold parseErrorResponse. now rewrite Hd.
  - unfold try_block. now rewrite Hsettles, Hok.
  - subst err. unfold createAPIError.
    destruct (Z.eqb_spec (status response) 400) as [H400|H400];
      destruct (errors errorData) as [errs|]; cbn;
      repeat split; try congruence; try tauto;
      try (intros [? ?]; congruence); try (intros; exfalso; tauto).
    all: try (rewrite H400; reflexivity).
Qed.

Lemma error_response_classification_witness :
  try_block (Scenario.quiet (Responds Scenario.bad_request))
  = Rejected (APIErr (new_ValidationAPIError "Invalid request"
                        [ {| field := "github_pr_url"; field_message := "not a PR URL";
                             code := "invalid"; value := None |} ]
                        (Some "abc"))).
Proof.
  apply (error_response_classification
           (Scenario.quiet (Responds Scenario.bad_request)) Scenario.bad_request).
  - reflexivity.
  - cbn. lia.
Defined.

(** ** Transport failures and timeouts *)

(** A transport failure ends the call after the attempt in which it
    happens, whatever the budget: the [catch] block throws before it
    reaches the retry test. *)
Lemma fetch_failure_single_attempt w env endpoint options retryCount msg :
  settles (env retryCount) = FetchFails msg ->
  let run := request w env endpoint options retryCount in
  attempts (events run) = 1 /\ delays (events run) = [].
Proof.
  intros Hsettles run. subst run.
  rewrite request_unfold; cbn zeta. rewrite step_invoke, fetched_invoke.
  unfold try_block. rewrite Hsettles. unfold catch_block; cbn.
  destruct (signal_aborted w (env retryCount)); cbn; [split; reflexivity|].
  destruct (JS.includes msg "fetch"); cbn; split; reflexivity.
Qed.

(** When every attempt times out and nobody cancels, the budget is used up:
    [retries - retryCount + 1] attempts from attempt counter [retryCount]. *)
Lemma timeouts_exhaust_budget env endpoint options :
  (forall k, settles (env k) = TimerFires /\ while_pending (env k) = []) ->
  forall w retryCount,
    retryCount <= retries (config (this w)) ->
    attempts (events (request w env endpoint options retryCount))
    = retries (config (this w)) - retryCount + 1
    /\ settled (request w env endpoint options retryCount)
       = Rejected (APIErr (new_TimeoutError None)).
Proof.
  intros Henv.
  refine (request_induction env endpoint options _ _); intros w retryCount IH Hle.
  destruct (Henv retryCount) as [Hsettles Hquiet].
  assert (Hstep : step (invoke w (env retryCount) endpoint options retryCount)
                  = if retryCount <? retries (config (this w))
                    then Retry (delay_for (config (this w)) retryCount)
                    else Throw (APIErr (new_TimeoutError None))).
  { rewrite step_invoke, (signal_aborted_nil w _ Hquiet).
    unfold try_block. rewrite Hsettles. unfold catch_block; cbn.
    now rewrite andb_true_r. }
  rewrite request_unfold; cbn zeta. rewrite fetched_invoke.
  destruct (Z.ltb_spec retryCount (retries (config (this w)))) as [Hlt|Hge];
    rewrite Hstep in *; cbn [events settled].
  - rewrite attempts_fetch, attempts_sleep.
    specialize (IH _ eq_refl).
    rewrite run_actions_config, invoke_after_config in IH.
    destruct IH as [IHn IHs]; [lia|]. rewrite IHn, IHs. split; [lia|reflexivity].
  - rewrite attempts_fetch. change (attempts []) with 0. split; [lia|reflexivity].
Qed.

(** With exponential back-off and a positive base delay, consecutive sleeps
    of a logical call strictly increase. *)
Lemma exponential_delays_increase env endpoint options w (k : nat) d d' :
  retryBackoff (config (this w)) = true ->
  0 < retryDelay (config (this w)) ->
  delays (events (request w env endpoint options 0)) !! k = Some d ->
  delays (events (request w env endpoint options 0)) !! S k = Some d' ->
  d < d'.
Proof.
  intros Hexp Hpos Hd Hd'.
  apply request_delays_from in Hd, Hd'. unfold delay_for in *.
  rewrite Hexp in *. subst d d'.
  replace (0 + Z.of_nat (S k)) with (Z.succ (0 + Z.of_nat k)) by lia.
  rewrite Z.pow_succ_r by lia.
  assert (0 < 2 ^ (0 + Z.of_nat k)) by (apply Z.pow_pos_nonneg; lia).
  nia.
Qed.

(** The back-end answers 500 twice and then 200, with 3 retries and a base
    delay of 100 ms: the call resolves after three attempts and sleeps of
    100 and 200 ms. *)
Example flaky_backend_recovers :
  let w := updateConfig
             {| opt_baseURL := None; opt_timeout := None; opt_retries := Some 3;
                opt_retryDelay := Some 100; opt_retryBackoff := Some true;
                opt_enableLogging := None |}
             Scenario.client0 in
  let run := generateSummary w Scenario.flaky Scenario.widgets_request in
  settled run = Resolved Scenario.summary_json
  /\ attempts (events run) = 3
  /\ delays (events run) = [100; 200].
Proof. repeat split. Qed.

(** Every attempt times out under the default configuration: four attempts,
    with sleeps of 1, 2 and 4 seconds. *)
Example persistent_timeout :
  let run := getHealth Scenario.client0 (Scenario.always (Scenario.quiet TimerFires)) in
  settled run = Rejected (APIErr (new_TimeoutError None))
  /\ attempts (events run) = 4
  /\ delays (events run) = [1000; 2000; 4000].
Proof. repeat split. Qed.

(** C2.  With the default budget of 3 retries, a call whose attempts all
    fail in the transport ([fetch] rejects with [TypeError('Failed to
    fetch')]) makes one attempt, not four: the [NetworkError] is thrown
    without a sleep, although the retry test accepts it. *)
Theorem network_error_is_not_retried :
  let env := Scenario.always (Scenario.quiet (FetchFails "Failed to fetch")) in
  let run := getHealth Scenario.client0 env in
  let network_error :=
    new_NetworkError "Network error - please check your connection"
      (Some "Failed to fetch") in
  retries (config (this Scenario.client0)) = 3
  /\ settled run = Rejected (APIErr network_error)
  /\ isRetryableError network_error = true
  /\ attempts (events run) = 1
  /\ delays (events run) = [].
Proof. repeat split. Qed.

(** ** Cancellation while a body is read *)






(** [cancelRequests()] called while the body of a response is read, by
    an attempt whose race was left alone, aborts the signal of that
    attempt.  After a 2xx response the rejection of [response.json()]
    reaches the [catch] block of [request] and becomes the cancellation
    error; after any other response it is caught inside
    [parseErrorResponse], and the attempt goes on as an HTTP error built
    from the status line. *)
Lemma cancelled_read_step w a rest response endpoint options retryCount :
  while_pending (Interleaved.script a) = [] ->
  Interleaved.while_reading a = ActCancel :: rest ->
  settles (Interleaved.script a) = Responds response ->
  let i := Interleaved.invoke w a endpoint options retryCount in
  aborted (after i) (length (signals w)) = true
  /\ step i
     = if ok response then
         Throw (APIErr (new_APIClientError "Request was cancelled" (Some 0)
                          (Some "CANCELLED") None None))
       else
         catch_block (config (this w)) retryCount
           (APIErr (createAPIError (status response)
                      (Interleaved.parseErrorResponse (now (Interleaved.script a)) true
                         response))).
Proof.
  intros Hpending Hreading Hsettles.
  set (w1 := set_abortController (Some (length (signals w)))
               {| this := this w; signals := signals w ++ [false] |}).
  assert (Hrace : aborted w1 (length (signals w)) = false).
  { pose proof (signal_aborted_nil w (Interleaved.script a) Hpending) as H.
    unfold signal_aborted in H. now rewrite Hpending in H. }
  assert (Hread : aborted (run_actions (Interleaved.while_reading a) w1)
                    (length (signals w)) = true)
    by exact (signal_aborted_cancel w
                {| while_pending := Interleaved.while_reading a;
                   settles := settles (Interleaved.script a);
                   while_sleeping := []; now := now (Interleaved.script a) |}
                rest Hreading).
  unfold Interleaved.invoke;
    cbn [new_AbortController fst snd step after Interleaved.script].
  fold w1. rewrite Hpending. change (run_actions [] w1) with w1.
  rewrite Hrace. unfold Interleaved.reads_body. rewrite Hsettles. cbn [negb andb].
  rewrite Hread, run_actions_config. split; [reflexivity|].
  unfold Interleaved.try_block. rewrite Hsettles.
  unfold Interleaved.response_json at 1.
  destruct (ok response); reflexivity.
Qed.

(** X25.  An attempt that was cancelled while the body of a 5xx or 429
    response was read is retried whenever budget is left: its signal is
    aborted, and it goes on to the back-off sleep. *)
Lemma cancelled_error_read_is_retried w a rest response endpoint options retryCount :
  while_pending (Interleaved.script a) = [] ->
  Interleaved.while_reading a = ActCancel :: rest ->
  settles (Interleaved.script a) = Responds response ->
  500 <= status response \/ status response = 429 ->
  retryCount < retries (config (this w)) ->
  let i := Interleaved.invoke w a endpoint options retryCount in
  aborted (after i) (length (signals w)) = true
  /\ step i = Retry (delay_for (config (this w)) retryCount).
Proof.
  intros Hpending Hreading Hsettles Hstatus Hbudget.
  destruct (cancelled_read_step w a rest response endpoint options retryCount
              Hpending Hreading Hsettles) as [Haborted Hstep].
  split; [exact Haborted|]. cbn zeta in Hstep |- *. rewrite Hstep.
  assert (Hok : ok response = false) by (unfold ok; lia).
  assert (Hlt : (retryCount <? retries (config (this w))) = true) by lia.
  assert (Hretryable :
            isRetryableError
              (createAPIError (status response)
                 (Interleaved.parseErrorResponse (now (Interleaved.script a)) true response))
            = true)
    by (apply isRetryableError_createAPIError; lia).
  rewrite Hok. unfold catch_block;
    cbn [is_AbortError is_fetch_TypeError instanceof_APIClientError].
  now rewrite Hlt, Hretryable.
Qed.

Lemma cancelled_error_read_is_retried_witness :
  let i := Interleaved.invoke Scenario.client0 (Scenario.cancelled_reading_error 0)
             "/api/v1/summary/health" no_options 0 in
  aborted (after i) 0 = true /\ step i = Retry 1000.
Proof.
  apply (cancelled_error_read_is_retried Scenario.client0
           (Scenario.cancelled_reading_error 0) [] Scenario.overloaded
           "/api/v1/summary/health" no_options 0);
    [reflexivity|reflexivity|reflexivity|left; cbn; lia|cbn; lia].
Defined.

(** C5.  A cancelled attempt can be retried.  On a default client (three
    retries, back-off from 1000 ms) the first attempt of [getHealth()]
    receives a 503 with a JSON error body, and [cancelRequests()] is called
    while [parseErrorResponse] reads that body.  The signal of that
    attempt (controller 0) is aborted, yet the call sleeps 1000 ms, makes
    a second attempt and resolves with its payload.  The same cancellation
    while the body of a 200 response is read ends the call after one
    attempt with the ['Request was cancelled'] error. *)
Theorem cancel_while_reading_error_body_is_retried :
  let run := Interleaved.getHealth Scenario.client0 Scenario.cancelled_reading_error in
  let sibling := Interleaved.getHealth Scenario.client0 Scenario.cancelled_reading_success in
  signals (final run) = [true; false]
  /\ fetch_signals (events run) = [0%nat; 1%nat]
  /\ attempts (events run) = 2
  /\ delays (events run) = [1000]
  /\ settled run = Resolved Scenario.summary_json
  /\ attempts (events sibling) = 1
  /\ settled sibling
     = Rejected (APIErr (new_APIClientError "Request was cancelled" (Some 0)
                           (Some "CANCELLED") None None)).
Proof. vm_compute. repeat split; reflexivity. Qed.

(** ** Cancellation *)




(** ** Configuration *)

(** C9.  [updateConfig] merges the partial configuration into the client's
    configuration field by field and touches nothing else; a call made
    afterwards fetches from the merged [baseURL] with the merged [timeout],
    makes at most [retries + 1] attempts for the merged [retries], and
    sleeps according to the merged delay settings. *)
Theorem updateConfig_merges cfg w :
  let previous := config (this w) in
  let current := config (this (updateConfig cfg w)) in
  merged (opt_baseURL cfg) (baseURL previous) (baseURL current)
  /\ merged (opt_timeout cfg) (timeout previous) (timeout current)
  /\ merged (opt_retries cfg) (retries previous) (retries current)
  /\ merged (opt_retryDelay cfg) (retryDelay previous) (retryDelay current)
  /\ merged (opt_retryBackoff cfg) (retryBackoff previous) (retryBackoff current)
  /\ merged (opt_enableLogging cfg) (enableLogging previous) (enableLogging current)
  /\ abortController (this (updateConfig cfg w)) = abortController (this w)
  /\ signals (updateConfig cfg w) = signals w
  /\ (forall env endpoint options,
         let run := request (updateConfig cfg w) env endpoint options 0 in
         (forall ev, ev ∈ events run -> is_fetch ev = true ->
                     exists c,
                       ev = EvFetch (baseURL current +:+ endpoint)
                              {| init_method := init_method options;
                                 init_body := init_body options;
                                 headers := [("Content-Type", "application/json");
                                             ("Accept", "application/json")]
                                              ++ headers options;
                                 signal := Some c |}
                              (timeout current))
         /\ attempts (events run) <= Z.max 1 (retries current + 1)
         /\ (forall (k : nat) d, delays (events run) !! k = Some d ->
                                 d = delay_for current (Z.of_nat k))).
Proof.
  intros previous current.
  repeat match goal with |- _ /\ _ => split end.
  1-6: subst previous current; unfold updateConfig, spread, merged; cbn;
       match goal with |- match ?o with _ => _ end => destruct o; reflexivity end.
  1-2: reflexivity.
  intros env endpoint options run. subst run current. split; [|split].
  - intros ev Hin Hfetch. exact (request_fetch_events _ _ _ _ _ _ Hin Hfetch).
  - pose proof (request_attempts_from env endpoint options (updateConfig cfg w) 0). lia.
  - intros k d Hk. apply request_delays_from in Hk. exact Hk.
Qed.

Lemma updateConfig_merges_witness :
  retries (config (this (updateConfig Scenario.faster Scenario.client0))) = 1
  /\ retryDelay (config (this (updateConfig Scenario.faster Scenario.client0))) = 1000
  /\ attempts (events (getHealth (updateConfig Scenario.faster Scenario.client0)
                         (Scenario.always (Scenario.quiet TimerFires))))
     <= 2.
Proof.
  pose proof (updateConfig_merges Scenario.faster Scenario.client0)
    as (_ & _ & Hretries & Hdelay & _ & _ & _ & _ & Hcalls).
  split; [exact Hretries|split; [exact Hdelay|]].
  apply (Hcalls (Scenario.always (Scenario.quiet TimerFires))
           "/api/v1/summary/health" no_options).
Defined.

(** ** Input form *)

(** C8.  The ticket id ["invalid ticket!"] does not match the ticket
    pattern, so field validation reports it, [handleSubmit] never reaches
    [onSubmit], and submitting the form causes no network event: zero
    attempts. *)
Theorem invalid_ticket_blocks_submission props st w env :
  InputForm.jiraTicketId (InputForm.formData st) = Some "invalid ticket!" ->
  RegExp.test InputForm.JIRA_TICKET_PATTERN "invalid ticket!" = false
  /\ InputForm.validateField InputForm.FJiraTicketId "invalid ticket!"
     = Some "Please enter a valid Jira ticket ID (e.g., PROJ-123)"
  /\ InputForm.err_jiraTicketId (InputForm.validateForm (InputForm.formData st))
     = Some "Please enter a valid Jira ticket ID (e.g., PROJ-123)"
  /\ (forall cleanData st', InputForm.handleSubmit props st <> InputForm.Submits cleanData st')
  /\ App.submit props st w env = []
  /\ attempts (App.submit props st w env) = 0.
Proof.
  intros Hticket.
  assert (Herr : InputForm.err_jiraTicketId (InputForm.validateForm (InputForm.formData st))
                 = Some "Please enter a valid Jira ticket ID (e.g., PROJ-123)").
  { unfold InputForm.validateForm. rewrite Hticket. reflexivity. }
  assert (Hkeys : (0 <? InputForm.keys_length
                          (InputForm.validateForm (InputForm.formData st)))%nat = true).
  { unfold InputForm.keys_length. rewrite Herr.
    destruct (InputForm.err_githubPrUrl _); reflexivity. }
  assert (Hsubmit : forall cleanData st',
             InputForm.handleSubmit props st <> InputForm.Submits cleanData st').
  { intros cleanData st'. unfold InputForm.handleSubmit. rewrite Hkeys.
    destruct (_ || _); discriminate. }
  split; [reflexivity|split; [reflexivity|split; [exact Herr|split; [exact Hsubmit|]]]].
  assert (Hnone : App.submit props st w env = []).
  { unfold App.submit.
    destruct (InputForm.handleSubmit props st) as [|?|cleanData st'] eqn:Hs;
      [reflexivity..|]. exfalso. eapply Hsubmit. reflexivity. }
  rewrite Hnone. split; reflexivity.
Qed.

Lemma invalid_ticket_blocks_submission_witness :
  InputForm.jiraTicketId (InputForm.formData Scenario.invalid_ticket_form)
  = Some "invalid ticket!"
  /\ attempts (App.submit Scenario.enabled Scenario.invalid_ticket_form Scenario.client0
                 (Scenario.always (Scenario.quiet (Responds Scenario.success))))
     = 0.
Proof.
  split; [reflexivity|].
  apply (invalid_ticket_blocks_submission Scenario.enabled Scenario.invalid_ticket_form
           Scenario.client0
           (Scenario.always (Scenario.quiet (Responds Scenario.success)))).
  reflexivity.
Defined.

(** ** Wire format *)

Lemma or_undefined_not_empty v : JS.or_undefined v <> Some EmptyString.
Proof.
  unfold JS.or_undefined, JS.truthy. destruct v as [s|]; [|discriminate].
  destruct (String.eqb_spec s EmptyString); cbn; congruence.
Qed.

(** ** Strings *)

Lemma append_cons c s t : String c s +:+ t = String c (s +:+ t).
Proof. reflexivity. Qed.

Lemma append_nil_l s : EmptyString +:+ s = s.
Proof. reflexivity. Qed.

Lemma append_nil_r s : s +:+ EmptyString = s.
Proof.
  induction s as [|c s IH]; [reflexivity|]. now rewrite append_cons, IH.
Qed.

Lemma append_assoc s1 s2 s3 : (s1 +:+ s2) +:+ s3 = s1 +:+ (s2 +:+ s3).
Proof.
  induction s1 as [|c s1 IH]; [reflexivity|]. now rewrite !append_cons, IH.
Qed.

(** ** The wire format *)

Lemma read_chars_quote_char c tail :
  read_chars (quote_char c +:+ tail) = read_more c (read_chars tail).
Proof. destruct c as [[] [] [] [] [] [] [] []]; reflexivity. Qed.

Lemma read_chars_quote_chars s rest :
  read_chars (quote_chars s +:+ double_quote +:+ rest) = Some (s, rest).
Proof.
  induction s as [|c s IH]; [reflexivity|].
  cbn [quote_chars]. now rewrite append_assoc, read_chars_quote_char, IH.
Qed.

Lemma read_string_quote s rest : read_string (quote s +:+ rest) = Some (s, rest).
Proof.
  unfold quote. rewrite !append_assoc.
  change (double_quote +:+ ?x) with (String (ascii_of_nat 34) x) at 1.
  cbn [read_string]. change (nat_of_ascii (ascii_of_nat 34) =? 34)%nat with true.
  cbv iota. apply read_chars_quote_chars.
Qed.

Lemma read_property_quote name value rest :
  read_property name (quote name +:+ ":" +:+ quote value +:+ rest) = Some (value, rest).
Proof.
  unfold read_property. rewrite read_string_quote, String.eqb_refl.
  rewrite append_cons, append_nil_l. cbn [expect]. rewrite Ascii.eqb_refl.
  apply read_string_quote.
Qed.

(** Reading what [JSON.stringify] wrote gives the object back. *)
Lemma read_body_JSON_stringify c : read_body (JSON_stringify c) = Some c.
Proof.
  unfold JSON_stringify, read_body.
  rewrite append_cons, append_nil_l. cbn [expect]. rewrite Ascii.eqb_refl.
  rewrite (read_property_quote "github_pr_url" (github_pr_url c)).
  destruct c as [url [ticket|]]; cbn [jira_ticket_id github_pr_url]; [|reflexivity].
  cbv beta iota. rewrite !append_assoc, append_cons, append_nil_l.
  change (String.eqb (String "," ?x) "}") with false. cbv iota.
  rewrite Ascii.eqb_refl.
  now rewrite (read_property_quote "jira_ticket_id" ticket "}").
Qed.

(** ** The body of a summary request *)

(** C10.  [generateSummary] sends, on every attempt, a POST to the
    summary endpoint whose body is the serialized [cleanRequest]:
    [github_pr_url] is the trimmed URL, and [jira_ticket_id] is left out
    whenever the ticket id is absent or trims to the empty string, so it is
    never sent as an empty string.  The body is the object with the one
    property [github_pr_url] in that case, and the object with
    [github_pr_url] and then [jira_ticket_id], the trimmed ticket id, in
    the other; read back, it is [cleanRequest]. *)
Theorem generateSummary_wire_body w env r :
  let body := JSON_stringify (clean r) in
  github_pr_url (clean r) = JS.trim (githubPrUrl r)
  /\ (jiraTicketId r = None \/ (exists t, jiraTicketId r = Some t /\ JS.trim t = EmptyString) ->
      jira_ticket_id (clean r) = None
      /\ body = "{" +:+ quote "github_pr_url" +:+ ":" +:+ quote (JS.trim (githubPrUrl r))
                  +:+ "}")
  /\ (forall t, jiraTicketId r = Some t -> JS.trim t <> EmptyString ->
      jira_ticket_id (clean r) = Some (JS.trim t)
      /\ body = "{" +:+ quote "github_pr_url" +:+ ":" +:+ quote (JS.trim (githubPrUrl r))
                  +:+ "," +:+ quote "jira_ticket_id" +:+ ":" +:+ quote (JS.trim t)
                  +:+ "}")
  /\ jira_ticket_id (clean r) <> Some EmptyString
  /\ read_body body = Some (clean r)
  /\ (forall url init deadline,
         EvFetch url init deadline ∈ events (generateSummary w env r) ->
         url = baseURL (config (this w)) +:+ "/api/v1/summary/generate"
         /\ init_method init = Some "POST"
         /\ init_body init = Some body)
  /\ 1 <= attempts (events (generateSummary w env r)).
Proof.
  intros body. subst body.
  split; [reflexivity|split; [|split; [|split; [|split; [|split]]]]].
  - intros [Hnone|(t & Hsome & Hblank)]; unfold JSON_stringify, clean; cbn;
      rewrite ?Hnone, ?Hsome; cbn; rewrite ?Hblank; cbn; split; reflexivity.
  - intros t Hsome Hfull. unfold JSON_stringify, clean; cbn. rewrite Hsome; cbn.
    unfold JS.or_undefined, JS.truthy.
    destruct (String.eqb_spec (JS.trim t) EmptyString); [contradiction|].
    cbn. split; [reflexivity|]. now rewrite !append_assoc.
  - apply or_undefined_not_empty.
  - apply read_body_JSON_stringify.
  - intros url init deadline Hin. unfold generateSummary in Hin.
    destruct (request_fetch_events _ _ _ _ _ _ Hin eq_refl) as [c [= -> -> _]].
    repeat split.
  - unfold generateSummary. apply request_attempts_from.
Qed.

Lemma generateSummary_wire_body_witness :
  (jira_ticket_id (clean Scenario.widgets_request) = None
   /\ JSON_stringify (clean Scenario.widgets_request)
      = "{" +:+ quote "github_pr_url" +:+ ":"
          +:+ quote "https://github.com/acme/widgets/pull/42" +:+ "}")
  /\ (jira_ticket_id (clean Scenario.ticketed_request) = Some "PROJ-123"
      /\ JSON_stringify (clean Scenario.ticketed_request)
         = "{" +:+ quote "github_pr_url" +:+ ":"
             +:+ quote "https://github.com/acme/widgets/pull/42"
             +:+ "," +:+ quote "jira_ticket_id" +:+ ":" +:+ quote "PROJ-123" +:+ "}").
Proof.
  split.
  - apply (generateSummary_wire_body Scenario.client0
             (Scenario.always (Scenario.quiet TimerFires)) Scenario.widgets_request).
    right. exists "   ". split; reflexivity.
  - pose proof (generateSummary_wire_body Scenario.client0
                  (Scenario.always (Scenario.quiet TimerFires)) Scenario.ticketed_request)
      as (_ & _ & Hticket & _).
    apply (Hticket " PROJ-123  "); [reflexivity|discriminate].
Defined.

(** * Further properties *)

(** ** What can reach an attempt *)

(** The signal of an attempt is aborted exactly when [cancelRequests()] is
    the first thing that happens while its race is pending, whatever the
    state of the client. *)
Lemma signal_aborted_spec w a : signal_aborted w a = cancelled_first a.
Proof.
  unfold cancelled_first.
  destruct (while_pending a) as [|[] rest] eqn:Hp.
  - now apply signal_aborted_nil.
  - now apply (signal_aborted_cancel w a rest).
  - now apply (signal_aborted_new_call w a rest).
Qed.

Lemma try_block_ext a b : settles a = settles b -> now a = now b -> try_block a = try_block b.
Proof. unfold try_block. now intros -> ->. Qed.

Lemma step_invoke_ext w1 w2 a b endpoint options retryCount :
  config (this w1) = config (this w2) ->
  same_script a b ->
  step (invoke w1 a endpoint options retryCount)
  = step (invoke w2 b endpoint options retryCount).
Proof.
  intros Hcfg (Hc & Hs & Hn).
  rewrite !step_invoke, !signal_aborted_spec, Hc, Hcfg, (try_block_ext a b Hs Hn).
  reflexivity.
Qed.

Lemma attempts_erase evs : attempts (erase_signal <$> evs) = attempts evs.
Proof.
  induction evs as [|[url init deadline|ms] evs IH]; [reflexivity|..]; cbn [fmap list_fmap erase_signal].
  - now rewrite !attempts_fetch, IH.
  - now rewrite !attempts_sleep, IH.
Qed.

Lemma delays_erase evs : delays (erase_signal <$> evs) = delays evs.
Proof.
  induction evs as [|[url init deadline|ms] evs IH]; [reflexivity|..]; cbn; now rewrite IH.
Qed.

Lemma request_erased_ext env1 env2 endpoint options :
  forall w1 retryCount w2,
    config (this w1) = config (this w2) ->
    (forall k, retryCount <= k -> same_script (env1 k) (env2 k)) ->
    settled (request w1 env1 endpoint options retryCount)
    = settled (request w2 env2 endpoint options retryCount)
    /\ erase_signal <$> events (request w1 env1 endpoint options retryCount)
       = erase_signal <$> events (request w2 env2 endpoint options retryCount).
Proof.
  refine (request_induction env1 endpoint options _ _).
  intros w1 retryCount IH w2 Hcfg Hscripts.
  pose proof (step_invoke_ext w1 w2 _ _ endpoint options retryCount Hcfg
                (Hscripts retryCount (Z.le_refl _))) as Hstep.
  rewrite (request_unfold w1), (request_unfold w2); cbn zeta.
  rewrite <- Hstep, !fetched_invoke, Hcfg.
  destruct (step (invoke w1 (env1 retryCount) endpoint options retryCount))
    as [data|e|delay] eqn:Hstep1; cbn [settled events]; [split; reflexivity..|].
  destruct (IH delay eq_refl
              (run_actions (while_sleeping (env2 retryCount))
                 (after (invoke w2 (env2 retryCount) endpoint options retryCount))))
    as [Hs He].
  - now rewrite !run_actions_config, !invoke_after_config.
  - intros k Hk. apply Hscripts. lia.
  - rewrite Hs. split; [reflexivity|]. cbn [fmap list_fmap erase_signal].
    cbn [fmap] in He. now rewrite He.
Qed.

(** Two runs of the same script under the same configuration agree. *)
Lemma request_ignores_slot_and_sleep_aux env endpoint options w1 w2 retryCount :
  config (this w1) = config (this w2) ->
  settled (request w1 env endpoint options retryCount)
  = settled (request w2 env endpoint options retryCount)
  /\ attempts (events (request w1 env endpoint options retryCount))
     = attempts (events (request w2 env endpoint options retryCount))
  /\ delays (events (request w1 env endpoint options retryCount))
     = delays (events (request w2 env endpoint options retryCount)).
Proof.
  intros Hcfg.
  destruct (request_erased_ext env env endpoint options w1 retryCount w2 Hcfg)
    as [Hs He]; [intros; repeat split|].
  repeat split; [exact Hs| |].
  - now rewrite <- attempts_erase, He, attempts_erase.
  - now rewrite <- delays_erase, He, delays_erase.
Qed.



(** ** Runs of retried attempts *)

Lemma same_script_refl a : same_script a a.
Proof. repeat split. Qed.

(** How an attempt that fails with a retryable error ends. *)
Lemma step_retryable w a endpoint options retryCount e :
  cancelled_first a = false ->
  try_block a = Rejected (APIErr e) ->
  isRetryableError e = true ->
  step (invoke w a endpoint options retryCount)
  = if retryCount <? retries (config (this w))
    then Retry (delay_for (config (this w)) retryCount)
    else Throw (APIErr e).
Proof.
  intros Hc Ht Hr. rewrite step_invoke, signal_aborted_spec, Hc, Ht.
  unfold catch_block; cbn. now rewrite Hr, andb_true_r.
Qed.

(** A call whose attempts [retryCount], ..., [n - 1] are all retried
    continues like a call started at attempt [n]. *)
Lemma request_after_retries env endpoint options w n :
  forall retryCount,
    retryCount <= n ->
    (forall k, retryCount <= k < n ->
               exists d, step (invoke w (env k) endpoint options k) = Retry d) ->
    settled (request w env endpoint options retryCount)
    = settled (request w env endpoint options n)
    /\ attempts (events (request w env endpoint options retryCount))
       = (n - retryCount) + attempts (events (request w env endpoint options n))
    /\ delays (events (request w env endpoint options retryCount))
       = (delay_for (config (this w)) <$> seqZ retryCount (n - retryCount))
           ++ delays (events (request w env endpoint options n)).
Proof.
  intros retryCount Hle.
  remember (Z.to_nat (n - retryCount)) as m eqn:Hm.
  revert retryCount Hle Hm.
  induction m as [|m IH]; intros retryCount Hle Hm Hretried.
  - assert (retryCount = n) as -> by lia.
    rewrite Z.sub_diag. cbn. repeat split; lia.
  - destruct (Hretried retryCount) as [d Hd]; [lia|].
    pose proof (invoke_Retry_delay _ _ _ _ _ _ Hd) as ->.
    rewrite (request_unfold w env endpoint options retryCount); cbn zeta.
    rewrite Hd, fetched_invoke; cbn [settled events].
    rewrite attempts_fetch, attempts_sleep; cbn [delays].
    match goal with |- context [request ?w' env endpoint options (retryCount + 1)] =>
      destruct (request_ignores_slot_and_sleep_aux env endpoint options w' w (retryCount + 1))
        as (Hs & Ha & Hds)
    end.
    { now rewrite run_actions_config, invoke_after_config. }
    rewrite Hs, Ha, Hds.
    destruct (IH (retryCount + 1)) as (IHs & IHa & IHd); [lia|lia| |].
    { intros k Hk. apply Hretried. lia. }
    rewrite IHs, IHa, IHd.
    rewrite (seqZ_cons retryCount) by lia.
    replace (Z.succ retryCount) with (retryCount + 1) by lia.
    replace (Z.pred (n - retryCount)) with (n - (retryCount + 1)) by lia.
    split; [reflexivity|split; [lia|reflexivity]].
Qed.

Lemma request_decided w env endpoint options retryCount :
  (forall d, step (invoke w (env retryCount) endpoint options retryCount) <> Retry d) ->
  attempts (events (request w env endpoint options retryCount)) = 1
  /\ delays (events (request w env endpoint options retryCount)) = []
  /\ match step (invoke w (env retryCount) endpoint options retryCount) with
     | Return data => settled (request w env endpoint options retryCount) = Resolved data
     | Throw e => settled (request w env endpoint options retryCount) = Rejected e
     | Retry _ => False
     end.
Proof.
  intros Hno. rewrite request_unfold; cbn zeta. rewrite fetched_invoke.
  destruct (step (invoke w (env retryCount) endpoint options retryCount)) as [data|e|d];
    [repeat split..|]. now destruct (Hno d).
Qed.

(** X2.  When every attempt fails with a retryable error (a timeout, or a
    response with status 429 or at least 500) and is not cancelled, a call
    makes exactly [retries + 1] attempts, sleeps [delay_for 0], ...,
    [delay_for (retries - 1)] between them, and rejects with the error of
    the last attempt: the errors of the earlier attempts are dropped. *)
Theorem retryable_failures_exhaust_budget w env endpoint options (e : Z -> APIClientError) :
  0 <= retries (config (this w)) ->
  (forall k, 0 <= k <= retries (config (this w)) ->
             cancelled_first (env k) = false
             /\ try_block (env k) = Rejected (APIErr (e k))
             /\ isRetryableError (e k) = true) ->
  let run := request w env endpoint options 0 in
  settled run = Rejected (APIErr (e (retries (config (this w)))))
  /\ attempts (events run) = retries (config (this w)) + 1
  /\ delays (events run)
     = delay_for (config (this w)) <$> seqZ 0 (retries (config (this w))).
Proof.
  intros Hretries Hfail run. subst run.
  set (n := retries (config (this w))) in *.
  destruct (request_after_retries env endpoint options w n 0) as (Hs & Ha & Hd); [lia| |].
  { intros k Hk. destruct (Hfail k) as (Hc & Ht & Hr); [lia|].
    rewrite (step_retryable w _ endpoint options k _ Hc Ht Hr). fold n.
    destruct (Z.ltb_spec k n); [eauto|lia]. }
  destruct (Hfail n) as (Hc & Ht & Hr); [lia|].
  pose proof (step_retryable w _ endpoint options n _ Hc Ht Hr) as Hstep.
  fold n in Hstep. rewrite Z.ltb_irrefl in Hstep.
  destruct (request_decided w env endpoint options n) as (Ha1 & Hd1 & Hs1).
  { intros d. rewrite Hstep. discriminate. }
  rewrite Hstep in Hs1.
  rewrite Hs, Ha, Hd, Hs1, Ha1, Hd1, Z.sub_0_r, app_nil_r.
  split; [reflexivity|split; [lia|reflexivity]].
Qed.

Lemma retryable_failures_exhaust_budget_witness :
  settled (getHealth Scenario.client0 Scenario.unavailable)
  = Rejected (APIErr (createAPIError 503
                        (parseErrorResponse Scenario.clock
                           (Scenario.plain 503 "attempt 3")))).
Proof.
  apply (retryable_failures_exhaust_budget Scenario.client0 Scenario.unavailable
           "/api/v1/summary/health" no_options
           (fun k => createAPIError 503
                       (parseErrorResponse Scenario.clock
                          (Scenario.plain 503 ("attempt " +:+ JS.number_to_string k))))).
  - cbn. lia.
  - intros k _. repeat split.
Defined.



(** ** Back-off time *)

Lemma request_delays_seq w env endpoint options :
  delays (events (request w env endpoint options 0))
  = delay_for (config (this w))
      <$> seqZ 0 (attempts (events (request w env endpoint options 0)) - 1).
Proof.
  apply list_eq; intros i. rewrite list_lookup_fmap.
  rewrite <- request_delays_length.
  destruct (delays (events (request w env endpoint options 0)) !! i) as [d|] eqn:Hd.
  - pose proof (lookup_lt_Some _ _ _ Hd) as Hlt.
    apply request_delays_from in Hd. rewrite lookup_seqZ_lt by lia. now rewrite Hd.
  - apply lookup_ge_None in Hd. now rewrite lookup_seqZ_ge by lia.
Qed.

Lemma total_app ds1 ds2 : total (ds1 ++ ds2) = total ds1 + total ds2.
Proof. unfold total. induction ds1 as [|d ds1 IH]; cbn; lia. Qed.

Lemma total_exponential a n :
  0 <= n -> total ((fun k => a * 2 ^ k) <$> seqZ 0 n) = a * (2 ^ n - 1).
Proof.
  revert n. apply natlike_ind;
    [change (seqZ 0 0) with (@nil Z); unfold total; simpl; lia|].
  intros n Hn IH. rewrite Z.pow_succ_r by lia. unfold Z.succ.
  rewrite seqZ_app, fmap_app, total_app, IH by lia.
  change (seqZ (0 + n) 1) with [0 + n]. unfold total; simpl.
  rewrite Z.add_0_l. lia.
Qed.

Lemma total_constant a n : 0 <= n -> total ((fun _ => a) <$> seqZ 0 n) = a * n.
Proof.
  revert n. apply natlike_ind;
    [change (seqZ 0 0) with (@nil Z); unfold total; simpl; lia|].
  intros n Hn IH. unfold Z.succ.
  rewrite seqZ_app, fmap_app, total_app, IH by lia.
  change (seqZ (0 + n) 1) with [0 + n]. unfold total; simpl. lia.
Qed.

(** X4.  The sleeps of a call are [delay_for 0], [delay_for 1], ..., one
    between two consecutive attempts.  Over [n] sleeps they add up to
    [retryDelay * (2^n - 1)] with exponential back-off and to
    [retryDelay * n] without; so a call never sleeps longer in total than
    [retryDelay * (2^retries - 1)], respectively [retryDelay * retries]. *)
Theorem total_backoff w env endpoint options :
  let run := request w env endpoint options 0 in
  let cfg := config (this w) in
  let sleeps := attempts (events run) - 1 in
  delays (events run) = delay_for cfg <$> seqZ 0 sleeps
  /\ total (delays (events run))
     = (if retryBackoff cfg
        then retryDelay cfg * (2 ^ sleeps - 1)
        else retryDelay cfg * sleeps)
  /\ (0 <= retries cfg -> 0 <= retryDelay cfg ->
      total (delays (events run))
      <= if retryBackoff cfg
         then retryDelay cfg * (2 ^ retries cfg - 1)
         else retryDelay cfg * retries cfg).
Proof.
  intros run cfg sleeps.
  pose proof (request_attempts_from env endpoint options w 0) as Hbound.
  fold run cfg in Hbound.
  assert (Hseq : delays (events run) = delay_for cfg <$> seqZ 0 sleeps)
    by apply request_delays_seq.
  assert (Htotal : total (delays (events run))
                   = if retryBackoff cfg
                     then retryDelay cfg * (2 ^ sleeps - 1)
                     else retryDelay cfg * sleeps).
  { rewrite Hseq. unfold delay_for.
    destruct (retryBackoff cfg);
      [apply total_exponential|apply total_constant]; subst sleeps; lia. }
  split; [exact Hseq|split; [exact Htotal|]].
  intros Hretries Hdelay. rewrite Htotal.
  assert (0 <= sleeps <= retries cfg) by (subst sleeps; lia).
  destruct (retryBackoff cfg).
  - assert (2 ^ sleeps <= 2 ^ retries cfg) by (apply Z.pow_le_mono_r; lia). nia.
  - nia.
Qed.

Lemma total_backoff_witness :
  total (delays (events (getHealth Scenario.client0 Scenario.unavailable))) <= 7000.
Proof.
  apply (total_backoff Scenario.client0 Scenario.unavailable
           "/api/v1/summary/health" no_options); cbn; lia.
Defined.

(** ** Attempts that are not retried *)





(** ** The state a call leaves behind *)

Lemma request_final_config env endpoint options :
  forall w retryCount,
    config (this (final (request w env endpoint options retryCount))) = config (this w).
Proof.
  refine (request_induction env endpoint options _ _); intros w retryCount IH.
  rewrite request_unfold; cbn zeta.
  destruct (step (invoke w (env retryCount) endpoint options retryCount))
    as [data|e|delay] eqn:Hstep; cbn [final]; [apply invoke_after_config..|].
  rewrite (IH delay eq_refl). now rewrite run_actions_config, invoke_after_config.
Qed.

Lemma after_invoke_quiet w a endpoint options retryCount :
  while_pending a = [] ->
  after (invoke w a endpoint options retryCount)
  = {| this := {| config := config (this w);
                  abortController := Some (length (signals w)) |};
       signals := signals w ++ [false] |}.
Proof. unfold invoke; cbn. now intros ->. Qed.

Lemma request_final_quiet env endpoint options :
  (forall k, while_pending (env k) = [] /\ while_sleeping (env k) = []) ->
  forall w retryCount,
    let run := request w env endpoint options retryCount in
    let n := Z.to_nat (attempts (events run)) in
    signals (final run) = signals w ++ replicate n false
    /\ abortController (this (final run)) = Some (length (signals w) + n - 1)%nat.
Proof.
  intros Hquiet.
  refine (request_induction env endpoint options _ _); intros w retryCount IH.
  destruct (Hquiet retryCount) as [Hp Hs].
  cbn zeta. rewrite request_unfold; cbn zeta.
  rewrite fetched_invoke, (after_invoke_quiet w _ endpoint options retryCount Hp).
  destruct (step (invoke w (env retryCount) endpoint options retryCount))
    as [data|e|delay] eqn:Hstep; cbn [final events];
    rewrite attempts_fetch.
  1,2: change (attempts []) with 0; cbn; split; [reflexivity|f_equal; lia].
  rewrite attempts_sleep, Hs. cbn [run_actions fold_left].
  specialize (IH delay eq_refl). cbn zeta in IH.
  rewrite (after_invoke_quiet w _ endpoint options retryCount Hp), Hs in IH.
  cbn [run_actions fold_left signals] in IH. destruct IH as [IHs IHc].
  match goal with |- context [attempts (events ?r)] =>
    pose proof (request_attempts_from env endpoint options
                  {| this := {| config := config (this w);
                                abortController := Some (length (signals w)) |};
                     signals := signals w ++ [false] |} (retryCount + 1)) as Hn;
    set (m := attempts (events r)) in *
  end.
  replace (Z.to_nat (1 + m)) with (S (Z.to_nat m)) by lia.
  rewrite IHs, IHc, <- app_assoc, length_app; cbn.
  split; [reflexivity|f_equal; lia].
Qed.

(** X7.  [request] never changes the configuration.  When nobody else acts
    during a call, each attempt adds one controller whose signal stays
    unaborted, no existing signal changes, and after the call the client
    still refers to the controller of the last attempt: the slot is not
    cleared when a call completes. *)
Theorem call_leaves_last_controller w env endpoint options :
  (forall k, while_pending (env k) = [] /\ while_sleeping (env k) = []) ->
  let run := request w env endpoint options 0 in
  let n := Z.to_nat (attempts (events run)) in
  config (this (final run)) = config (this w)
  /\ signals (final run) = signals w ++ replicate n false
  /\ abortController (this (final run)) = Some (length (signals w) + n - 1)%nat
  /\ (1 <= n)%nat.
Proof.
  intros Hquiet run n.
  destruct (request_final_quiet env endpoint options Hquiet w 0) as [Hs Hc].
  pose proof (request_attempts_from env endpoint options w 0).
  split; [apply request_final_config|split; [exact Hs|split; [exact Hc|subst n run; lia]]].
Qed.

Lemma call_leaves_last_controller_witness :
  abortController (this (final (getHealth Scenario.client0 Scenario.flaky))) = Some 2%nat
  /\ signals (final (getHealth Scenario.client0 Scenario.flaky)) = [false; false; false].
Proof.
  pose proof (call_leaves_last_controller Scenario.client0 Scenario.flaky
                "/api/v1/summary/health" no_options) as H.
  destruct H as (_ & Hs & Hc & _).
  - intros k. unfold Scenario.flaky. destruct (k <? 2); split; reflexivity.
  - split; [exact Hc|exact Hs].
Defined.

(** ** Cancelling and reconfiguring *)

(** X8.  [cancelRequests()] keeps the configuration, empties the slot,
    aborts the signal of the controller that was in the slot and changes no
    other signal; invoking it a second time changes nothing more. *)
Theorem cancelRequests_effect w :
  config (this (cancelRequests w)) = config (this w)
  /\ abortController (this (cancelRequests w)) = None
  /\ (forall c, abortController (this w) = Some c ->
                (c < length (signals w))%nat ->
                aborted (cancelRequests w) c = true)
  /\ (forall c, abortController (this w) <> Some c ->
                signals (cancelRequests w) !! c = signals w !! c)
  /\ cancelRequests (cancelRequests w) = cancelRequests w.
Proof.
  unfold cancelRequests.
  destruct (abortController (this w)) as [c0|] eqn:Hslot; cbn.
  - repeat split.
    + intros c [= <-] Hlt. apply aborted_true; cbn.
      now apply list_lookup_insert_eq.
    + intros c Hne. apply list_lookup_insert_ne. congruence.
  - rewrite Hslot. repeat split; try assumption; try discriminate.
Qed.

Lemma cancelRequests_effect_witness :
  aborted (cancelRequests Scenario.client_busy) 0 = true.
Proof.
  apply (proj1 (proj2 (proj2 (cancelRequests_effect Scenario.client_busy))) 0%nat).
  - reflexivity.
  - cbn. lia.
Defined.

Lemma spread_override base a b :
  spread (spread base a) b = spread base (override a b).
Proof.
  unfold spread, override; cbn.
  destruct (opt_baseURL b), (opt_timeout b), (opt_retries b), (opt_retryDelay b),
    (opt_retryBackoff b), (opt_enableLogging b); reflexivity.
Qed.

Lemma spread_no_overrides base : spread base no_overrides = base.
Proof. now destruct base. Qed.

(** X9.  Configuration updates compose: two updates in a row are one update
    with the later values winning, an update repeated is the update, an
    empty update changes nothing, and updating commutes with
    [cancelRequests()]. *)
Theorem updateConfig_composes a b w :
  updateConfig b (updateConfig a w) = updateConfig (override a b) w
  /\ updateConfig a (updateConfig a w) = updateConfig a w
  /\ updateConfig no_overrides w = w
  /\ cancelRequests (updateConfig a w) = updateConfig a (cancelRequests w).
Proof.
  split; [|split; [|split]].
  - unfold updateConfig; cbn. now rewrite spread_override.
  - unfold updateConfig; cbn. rewrite spread_override. f_equal. f_equal.
    unfold spread, override; cbn.
    destruct (opt_baseURL a), (opt_timeout a), (opt_retries a), (opt_retryDelay a),
      (opt_retryBackoff a), (opt_enableLogging a); reflexivity.
  - unfold updateConfig. rewrite spread_no_overrides.
    now destruct w as [[cfg slot] sigs].
  - unfold cancelRequests. cbn [updateConfig this abortController].
    destruct (abortController (this w)) as [c|]; reflexivity.
Qed.

(** ** The singleton *)

(** X10.  [getAPIClient] always leaves an instance behind and creates no
    controller.  An access without configuration returns the existing
    instance unchanged.  Configurations passed on successive accesses
    accumulate on the one instance: after accesses with [c1] and then [c2]
    from an empty program, the configuration is the defaults overridden by
    [c1] and then by [c2]. *)
Theorem getAPIClient_singleton penv cfg p :
  is_Some (apiClientInstance (getAPIClient penv cfg p))
  /\ controllers (getAPIClient penv cfg p) = controllers p
  /\ getAPIClient penv None (getAPIClient penv cfg p) = getAPIClient penv cfg p
  /\ (forall inst, apiClientInstance p = Some inst ->
                   getAPIClient penv None p = p)
  /\ (forall c1 c2,
         apiClientInstance p = None ->
         apiClientInstance (getAPIClient penv (Some c2) (getAPIClient penv (Some c1) p))
         = Some {| config := spread (DEFAULT_CONFIG penv) (override c1 c2);
                   abortController := None |}).
Proof.
  unfold getAPIClient.
  destruct (apiClientInstance p) as [inst|] eqn:Hinst; cbn.
  - destruct cfg as [c|]; cbn; rewrite ?Hinst;
      repeat split; eauto; try (intros; discriminate).
  - repeat split; eauto; try (intros; discriminate).
    intros c1 c2 _. now rewrite spread_override.
Qed.

Lemma getAPIClient_singleton_witness :
  getAPIClient Scenario.penv None Scenario.program_busy = Scenario.program_busy.
Proof.
  pose proof (getAPIClient_singleton Scenario.penv None Scenario.program_busy)
    as (_ & _ & _ & Hsame & _).
  eapply Hsame. reflexivity.
Defined.

(** X11.  [resetAPIClient] discards the instance and, when the instance
    refers to a controller, aborts its signal, so that a call in flight is
    cancelled.  The next access builds a client from the defaults and the
    configuration passed to that access only: earlier overrides are gone.
    Resetting twice is resetting once. *)
Theorem resetAPIClient_discards penv cfg p :
  apiClientInstance (resetAPIClient p) = None
  /\ apiClientInstance (getAPIClient penv cfg (resetAPIClient p))
     = Some {| config := spread (DEFAULT_CONFIG penv) (default no_overrides cfg);
               abortController := None |}
  /\ length (controllers (resetAPIClient p)) = length (controllers p)
  /\ (forall inst c,
         apiClientInstance p = Some inst ->
         abortController inst = Some c ->
         (c < length (controllers p))%nat ->
         controllers (resetAPIClient p) !! c = Some true)
  /\ resetAPIClient (resetAPIClient p) = resetAPIClient p.
Proof.
  unfold resetAPIClient, getAPIClient.
  destruct (apiClientInstance p) as [inst|] eqn:Hinst; cbn.
  - repeat split.
    + unfold cancelRequests; cbn.
      destruct (abortController inst); cbn; [apply length_insert|reflexivity].
    + intros inst' c [= <-] Hslot Hlt. unfold cancelRequests; cbn.
      rewrite Hslot; cbn. now apply list_lookup_insert_eq.
  - repeat split. intros inst c [=].
Qed.

Lemma resetAPIClient_discards_witness :
  controllers (resetAPIClient Scenario.program_busy) !! 0%nat = Some true
  /\ apiClientInstance (getAPIClient Scenario.penv None
                          (resetAPIClient Scenario.program_busy))
     = Some (this Scenario.client0).
Proof.
  pose proof (resetAPIClient_discards Scenario.penv None Scenario.program_busy)
    as (_ & Hnew & _ & Habort & _).
  split; [|exact Hnew].
  eapply Habort; [reflexivity|reflexivity|cbn; lia].
Defined.

(** ** Regular expressions *)

Lemma append_eq_nil s1 s2 :
  s1 +:+ s2 = EmptyString -> s1 = EmptyString /\ s2 = EmptyString.
Proof. destruct s1; [rewrite append_nil_l; tauto|rewrite append_cons; discriminate]. Qed.

Lemma length_append s1 s2 :
  String.length (s1 +:+ s2) = (String.length s1 + String.length s2)%nat.
Proof.
  induction s1 as [|c s1 IH]; [reflexivity|].
  rewrite append_cons; cbn [String.length]. now rewrite IH.
Qed.

Lemma all_chars_append p s1 s2 :
  all_chars p (s1 +:+ s2) = all_chars p s1 && all_chars p s2.
Proof.
  induction s1 as [|c s1 IH]; [reflexivity|].
  rewrite append_cons; cbn [all_chars]. now rewrite IH, andb_assoc.
Qed.

Lemma nullable_matches r : RegExp.nullable r = true <-> matches r EmptyString.
Proof.
  split.
  - induction r as [| |p|r1 IH1 r2 IH2|r1 IH1 r2 IH2|r IH]; cbn; try discriminate.
    + constructor.
    + intros [H1 H2]%andb_true_iff.
      change EmptyString with (EmptyString +:+ EmptyString). constructor; auto.
    + intros [H|H]%orb_true_iff; [apply matches_alt_l|apply matches_alt_r]; auto.
    + constructor.
  - intros H. remember EmptyString as s eqn:Hs.
    induction H as [|p c Hp|r1 r2 s1 s2 H1 IH1 H2 IH2|r1 r2 s H IH|r1 r2 s H IH
                    |r|r s1 s2 H1 IH1 H2 IH2]; cbn; try reflexivity.
    + discriminate.
    + apply append_eq_nil in Hs as [-> ->].
      now rewrite IH1, IH2.
    + now rewrite IH.
    + rewrite IH by assumption. apply orb_true_r.
Qed.

Lemma deriv_matches c r s : matches (RegExp.deriv c r) s <-> matches r (String c s).
Proof.
  split.
  - revert s.
    induction r as [| |p|r1 IH1 r2 IH2|r1 IH1 r2 IH2|r IH]; cbn; intros s H.
    + inversion H.
    + inversion H.
    + destruct (p c) eqn:Hp; inversion H; subst. now constructor.
    + destruct (RegExp.nullable r1) eqn:Hn.
      * inversion H as [| | | ? ? ? Hl | ? ? ? Hr | |]; subst.
        -- inversion Hl as [| |? ? s1 s2 Hd H2| | | |]; subst.
           change (String c (s1 +:+ s2)) with (String c s1 +:+ s2).
           constructor; auto.
        -- change (String c s) with (EmptyString +:+ String c s).
           constructor; [now apply nullable_matches|auto].
      * inversion H as [| |? ? s1 s2 Hd H2| | | |]; subst.
        change (String c (s1 +:+ s2)) with (String c s1 +:+ s2).
        constructor; auto.
    + inversion H; subst; [apply matches_alt_l|apply matches_alt_r]; auto.
    + inversion H as [| |? ? s1 s2 Hd H2| | | |]; subst.
      change (String c (s1 +:+ s2)) with (String c s1 +:+ s2).
      constructor; auto.
  - intros H. remember (String c s) as t eqn:Ht. revert s Ht.
    induction H as [|p c' Hp|r1 r2 s1 s2 H1 IH1 H2 IH2|r1 r2 t H IH|r1 r2 t H IH
                    |r|r s1 s2 H1 IH1 H2 IH2]; intros s Ht; cbn.
    + discriminate.
    + injection Ht as -> <-. rewrite Hp. constructor.
    + destruct s1 as [|c1 s1]; [rewrite append_nil_l in Ht|rewrite append_cons in Ht].
      * assert (Hn : RegExp.nullable r1 = true) by now apply nullable_matches.
        rewrite Hn. apply matches_alt_r. auto.
      * injection Ht as -> <-.
        destruct (RegExp.nullable r1);
          [apply matches_alt_l|]; constructor; auto.
    + apply matches_alt_l. auto.
    + apply matches_alt_r. auto.
    + discriminate.
    + destruct s1 as [|c1 s1]; [rewrite append_nil_l in Ht|rewrite append_cons in Ht].
      * specialize (IH2 s Ht). exact IH2.
      * injection Ht as -> <-. constructor; auto.
Qed.

(** The matcher decides membership in the language of the expression. *)
Lemma test_matches r s : RegExp.test r s = true <-> matches r s.
Proof.
  revert r. induction s as [|c s IH]; intros r; cbn.
  - apply nullable_matches.
  - rewrite IH. apply deriv_matches.
Qed.

Lemma matches_cat_inv r1 r2 s :
  matches (RegExp.Cat r1 r2) s
  <-> exists s1 s2, s = s1 +:+ s2 /\ matches r1 s1 /\ matches r2 s2.
Proof.
  split.
  - intros H. inversion H; subst. eauto.
  - intros (s1 & s2 & -> & H1 & H2). now constructor.
Qed.

Lemma matches_class_inv p s :
  matches (RegExp.Class p) s <-> exists c, s = String c EmptyString /\ p c = true.
Proof.
  split.
  - intros H. inversion H; subst. eauto.
  - intros (c & -> & Hp). now constructor.
Qed.

Lemma matches_eps_inv s : matches RegExp.Eps s <-> s = EmptyString.
Proof. split; [intros H; now inversion H|intros ->; constructor]. Qed.

Lemma matches_lit t s : matches (RegExp.lit t) s <-> s = t.
Proof.
  revert s. induction t as [|c t IH]; intros s; cbn [RegExp.lit].
  - apply matches_eps_inv.
  - rewrite matches_cat_inv. split.
    + intros (s1 & s2 & -> & H1 & H2). apply IH in H2 as ->.
      unfold RegExp.chr in H1. apply matches_class_inv in H1 as (x & -> & Hx).
      apply bool_decide_eq_true in Hx as ->. reflexivity.
    + intros ->. exists (String c EmptyString), t. repeat split.
      * constructor. now apply bool_decide_eq_true.
      * now apply IH.
Qed.

Lemma matches_star_class p s :
  matches (RegExp.Star (RegExp.Class p)) s <-> all_chars p s = true.
Proof.
  split.
  - intros H. remember (RegExp.Star (RegExp.Class p)) as r eqn:Hr.
    induction H as [| | | | | |r s1 s2 H1 _ H2 IH2]; try discriminate; [reflexivity|].
    injection Hr as ->. apply matches_class_inv in H1 as (c & -> & Hc).
    rewrite append_cons, append_nil_l; cbn. now rewrite Hc, IH2.
  - induction s as [|c s IH]; cbn; [constructor|].
    intros [Hc Hs]%andb_true_iff.
    change (String c s) with (String c EmptyString +:+ s).
    constructor; [now constructor|auto].
Qed.

Lemma matches_plus_class p s :
  matches (RegExp.plus (RegExp.Class p)) s
  <-> s <> EmptyString /\ all_chars p s = true.
Proof.
  unfold RegExp.plus. rewrite matches_cat_inv. split.
  - intros (s1 & s2 & -> & H1 & H2).
    apply matches_class_inv in H1 as (c & -> & Hc).
    apply matches_star_class in H2.
    rewrite append_cons, append_nil_l; cbn. now rewrite Hc, H2.
  - intros [Hne Hall]. destruct s as [|c s]; [contradiction|].
    cbn in Hall. apply andb_true_iff in Hall as [Hc Hs].
    exists (String c EmptyString), s. repeat split.
    + now constructor.
    + now apply matches_star_class.
Qed.

Lemma matches_at_most_class p n s :
  matches (RegExp.at_most n (RegExp.Class p)) s
  <-> (String.length s <= n)%nat /\ all_chars p s = true.
Proof.
  revert s. induction n as [|n IH]; intros s; cbn [RegExp.at_most].
  - rewrite matches_eps_inv. split.
    + intros ->. split; [cbn; lia|reflexivity].
    + intros [Hlen _]. destruct s; [reflexivity|cbn in Hlen; lia].
  - split.
    + intros H. inversion H as [| | |? ? ? Hl|? ? ? Hr| |]; subst.
      * apply matches_eps_inv in Hl as ->. split; [cbn; lia|reflexivity].
      * apply matches_cat_inv in Hr as (s1 & s2 & -> & H1 & H2).
        apply matches_class_inv in H1 as (c & -> & Hc).
        apply IH in H2 as [Hlen Hall].
        rewrite append_cons, append_nil_l; cbn. rewrite Hc, Hall. split; [lia|reflexivity].
    + intros [Hlen Hall]. destruct s as [|c s].
      * apply matches_alt_l. constructor.
      * cbn in Hlen, Hall. apply andb_true_iff in Hall as [Hc Hs].
        apply matches_alt_r.
        change (String c s) with (String c EmptyString +:+ s).
        constructor; [now constructor|]. apply IH. split; [lia|assumption].
Qed.

Lemma matches_bounded_class p lo hi s :
  (lo <= hi)%nat ->
  matches (RegExp.bounded lo hi (RegExp.Class p)) s
  <-> (lo <= String.length s <= hi)%nat /\ all_chars p s = true.
Proof.
  unfold RegExp.bounded. revert hi s.
  induction lo as [|lo IH]; intros hi s Hle; cbn [RegExp.times].
  - rewrite Nat.sub_0_r, matches_at_most_class. intuition lia.
  - destruct hi as [|hi]; [lia|].
    rewrite matches_cat_inv. change (S hi - S lo)%nat with (hi - lo)%nat. split.
    + intros (s1 & s2 & -> & H1 & H2).
      apply matches_class_inv in H1 as (c & -> & Hc).
      apply IH in H2 as [Hlen Hall]; [|lia].
      rewrite append_cons, append_nil_l; cbn. rewrite Hc, Hall. split; [lia|reflexivity].
    + intros [Hlen Hall]. destruct s as [|c s]; [cbn in Hlen; lia|].
      cbn in Hlen, Hall. apply andb_true_iff in Hall as [Hc Hs].
      exists (String c EmptyString), s. repeat split.
      * now constructor.
      * apply IH; [lia|]. split; [lia|assumption].
Qed.

(** The ticket pattern accepts exactly a key of 1 to 10 letters, a hyphen
    and at least one digit. *)
Lemma JIRA_TICKET_PATTERN_spec s :
  RegExp.test InputForm.JIRA_TICKET_PATTERN s = true
  <-> exists key number,
        s = key +:+ "-" +:+ number
        /\ (1 <= String.length key <= 10)%nat
        /\ all_chars is_letter key = true
        /\ number <> EmptyString
        /\ all_chars is_digit number = true.
Proof.
  rewrite test_matches. unfold InputForm.JIRA_TICKET_PATTERN.
  rewrite matches_cat_inv. split.
  - intros (key & rest & -> & Hkey & Hrest).
    apply matches_bounded_class in Hkey as [Hlen Hall]; [|lia].
    apply matches_cat_inv in Hrest as (dash & number & -> & Hdash & Hnumber).
    apply matches_lit in Hdash as ->.
    apply matches_plus_class in Hnumber as [Hne Hdigits].
    exists key, number. repeat split; assumption || lia.
  - intros (key & number & -> & Hlen & Hall & Hne & Hdigits).
    exists key, ("-" +:+ number). repeat split.
    + apply matches_bounded_class; [lia|]. split; assumption.
    + apply matches_cat_inv. exists "-", number. repeat split.
      * now apply matches_lit.
      * now apply matches_plus_class.
Qed.

(** The URL pattern accepts exactly [https://github.com/], an owner and a
    repository that are not empty and contain no slash, [/pull/] and at
    least one digit. *)
Lemma GITHUB_PR_URL_PATTERN_spec s :
  RegExp.test InputForm.GITHUB_PR_URL_PATTERN s = true
  <-> exists owner repo number,
        s = "https://github.com/" +:+ owner +:+ "/" +:+ repo +:+ "/pull/" +:+ number
        /\ owner <> EmptyString /\ all_chars not_slash owner = true
        /\ repo <> EmptyString /\ all_chars not_slash repo = true
        /\ number <> EmptyString /\ all_chars is_digit number = true.
Proof.
  rewrite test_matches. unfold InputForm.GITHUB_PR_URL_PATTERN.
  split.
  - intros H.
    apply matches_cat_inv in H as (s0 & t0 & -> & H0 & H).
    apply matches_cat_inv in H as (owner & t1 & -> & Howner & H).
    apply matches_cat_inv in H as (s1 & t2 & -> & H1 & H).
    apply matches_cat_inv in H as (repo & t3 & -> & Hrepo & H).
    apply matches_cat_inv in H as (s2 & number & -> & H2 & Hnumber).
    apply matches_lit in H0 as ->. apply matches_lit in H1 as ->.
    apply matches_lit in H2 as ->.
    apply matches_plus_class in Howner as [? ?].
    apply matches_plus_class in Hrepo as [? ?].
    apply matches_plus_class in Hnumber as [? ?].
    exists owner, repo, number. repeat split; assumption.
  - intros (owner & repo & number & -> & Ho & Hoa & Hr & Hra & Hn & Hna).
    apply matches_cat_inv. eexists _, _. split; [reflexivity|split; [now apply matches_lit|]].
    apply matches_cat_inv. eexists _, _.
    split; [reflexivity|split; [now apply matches_plus_class|]].
    apply matches_cat_inv. eexists _, _. split; [reflexivity|split; [now apply matches_lit|]].
    apply matches_cat_inv. eexists _, _.
    split; [reflexivity|split; [now apply matches_plus_class|]].
    apply matches_cat_inv. eexists _, _. split; [reflexivity|split; [now apply matches_lit|]].
    now apply matches_plus_class.
Qed.

(** ** Trimming *)

Lemma trimEnd_cons c s :
  JS.trimEnd (String c s)
  = match JS.trimEnd s with
    | EmptyString => if JS.isWhiteSpace c then EmptyString else String c EmptyString
    | t => String c t
    end.
Proof. reflexivity. Qed.

Lemma trimEnd_idem s : JS.trimEnd (JS.trimEnd s) = JS.trimEnd s.
Proof.
  induction s as [|c s IH]; [reflexivity|]. rewrite trimEnd_cons.
  destruct (JS.trimEnd s) as [|d t] eqn:Ht.
  - destruct (JS.isWhiteSpace c) eqn:Hc; [reflexivity|].
    rewrite trimEnd_cons. cbn [JS.trimEnd]. now rewrite Hc.
  - rewrite trimEnd_cons, IH. reflexivity.
Qed.

Lemma trimStart_clean c s :
  JS.isWhiteSpace c = false -> JS.trimStart (String c s) = String c s.
Proof. intros Hc. cbn. now rewrite Hc. Qed.

Lemma trimStart_head s :
  match JS.trimStart s with
  | EmptyString => True
  | String c _ => JS.isWhiteSpace c = false
  end.
Proof.
  induction s as [|c s IH]; cbn; [exact I|].
  destruct (JS.isWhiteSpace c) eqn:Hc; [exact IH|exact Hc].
Qed.

Lemma trimEnd_head c s :
  JS.isWhiteSpace c = false -> exists t, JS.trimEnd (String c s) = String c t.
Proof.
  intros Hc. rewrite trimEnd_cons. destruct (JS.trimEnd s); [rewrite Hc|]; eauto.
Qed.

Lemma trim_idem s : JS.trim (JS.trim s) = JS.trim s.
Proof.
  unfold JS.trim. pose proof (trimStart_head s) as Hhead.
  destruct (JS.trimStart s) as [|c t]; [reflexivity|].
  destruct (trimEnd_head c t Hhead) as [u Hu].
  rewrite Hu, (trimStart_clean c u Hhead), <- Hu. apply trimEnd_idem.
Qed.

(** ** Field validation *)

Lemma truthy_validateField f v :
  JS.or_undefined (InputForm.validateField f v) = InputForm.validateField f v.
Proof.
  unfold InputForm.validateField.
  destruct f; repeat match goal with |- context [if ?b then _ else _] => destruct b end;
    reflexivity.
Qed.

Lemma truthy_trim_empty v : JS.truthy (Some v) = false <-> v = EmptyString.
Proof.
  cbn. destruct (String.eqb_spec v EmptyString); cbn; split; congruence.
Qed.

(** X12.  The ticket field is optional and validated on its trimmed value:
    it is accepted exactly when the value is blank or is, after trimming,
    a key of 1 to 10 ASCII letters, a hyphen and at least one digit.
    Every other value gets the message that asks for a valid Jira ticket
    id. *)
Theorem jira_ticket_accepted v :
  (InputForm.validateField InputForm.FJiraTicketId v = None
   <-> JS.trim v = EmptyString
       \/ exists key number,
            JS.trim v = key +:+ "-" +:+ number
            /\ (1 <= String.length key <= 10)%nat
            /\ all_chars is_letter key = true
            /\ number <> EmptyString
            /\ all_chars is_digit number = true)
  /\ (InputForm.validateField InputForm.FJiraTicketId v <> None ->
      InputForm.validateField InputForm.FJiraTicketId v
      = Some "Please enter a valid Jira ticket ID (e.g., PROJ-123)").
Proof.
  unfold InputForm.validateField.
  destruct (JS.truthy (Some (JS.trim v))) eqn:Htruthy; cbn [andb].
  - assert (Hne : JS.trim v <> EmptyString).
    { intros Hempty. apply truthy_trim_empty in Hempty. congruence. }
    destruct (RegExp.test InputForm.JIRA_TICKET_PATTERN (JS.trim v)) eqn:Htest; cbn.
    + apply JIRA_TICKET_PATTERN_spec in Htest. split; [|congruence].
      split; [intros _; right; exact Htest|reflexivity].
    + split; [|reflexivity]. split; [discriminate|].
      intros [Hempty|Hshape]; [contradiction|].
      apply JIRA_TICKET_PATTERN_spec in Hshape. congruence.
  - apply truthy_trim_empty in Htruthy. split; [|congruence]. tauto.
Qed.

Lemma jira_ticket_accepted_witness :
  InputForm.validateField InputForm.FJiraTicketId "  proj-7 " = None.
Proof.
  apply (proj1 (jira_ticket_accepted "  proj-7 ")).
  right. exists "proj", "7". repeat split; cbn; lia || discriminate.
Defined.

(** X13.  The URL field is required and validated on its trimmed value: a
    blank value gets the message that the URL is required; any other value
    is accepted exactly when, after trimming, it is
    [https://github.com/<owner>/<repo>/pull/<number>] with an owner and a
    repository that are not empty and contain no slash and a number of at
    least one digit. *)
Theorem github_url_accepted v :
  (InputForm.validateField InputForm.FGithubPrUrl v = Some "GitHub PR URL is required"
   <-> JS.trim v = EmptyString)
  /\ (InputForm.validateField InputForm.FGithubPrUrl v = None
      <-> exists owner repo number,
            JS.trim v = "https://github.com/" +:+ owner +:+ "/" +:+ repo
                          +:+ "/pull/" +:+ number
            /\ owner <> EmptyString /\ all_chars not_slash owner = true
            /\ repo <> EmptyString /\ all_chars not_slash repo = true
            /\ number <> EmptyString /\ all_chars is_digit number = true).
Proof.
  unfold InputForm.validateField.
  destruct (JS.truthy (Some (JS.trim v))) eqn:Htruthy; cbn [negb].
  - assert (Hne : JS.trim v <> EmptyString).
    { intros Hempty. apply truthy_trim_empty in Hempty. congruence. }
    destruct (RegExp.test InputForm.GITHUB_PR_URL_PATTERN (JS.trim v)) eqn:Htest; cbn.
    + apply GITHUB_PR_URL_PATTERN_spec in Htest.
      split; [split; [discriminate|contradiction]|].
      split; [intros _; exact Htest|reflexivity].
    + split; [split; [discriminate|contradiction]|].
      split; [discriminate|].
      intros Hshape. apply GITHUB_PR_URL_PATTERN_spec in Hshape. congruence.
  - apply truthy_trim_empty in Htruthy.
    split; [split; [intros _; exact Htruthy|reflexivity]|].
    split; [discriminate|].
    intros (owner & repo & number & Heq & _). rewrite Htruthy in Heq. discriminate.
Qed.

Lemma github_url_accepted_witness :
  InputForm.validateField InputForm.FGithubPrUrl " https://github.com/acme/widgets/pull/42"
  = None.
Proof.
  apply (proj2 (github_url_accepted " https://github.com/acme/widgets/pull/42")).
  exists "acme", "widgets", "42". repeat split; discriminate.
Defined.

(** ** Submitting the form *)

Lemma validateField_trim f v :
  InputForm.validateField f (JS.trim v) = InputForm.validateField f v.
Proof. unfold InputForm.validateField. now rewrite trim_idem. Qed.

Lemma keys_length_zero e :
  InputForm.keys_length e = 0%nat
  <-> InputForm.err_githubPrUrl e = None
      /\ InputForm.err_jiraTicketId e = None
      /\ InputForm.general e = None.
Proof.
  unfold InputForm.keys_length.
  destruct (InputForm.err_githubPrUrl e), (InputForm.err_jiraTicketId e),
    (InputForm.general e); cbn; split; (try (intros (? & ? & ?)); try discriminate);
    try lia; auto.
Qed.

Lemma ticket_value d :
  default EmptyString (JS.or_undefined (InputForm.jiraTicketId d))
  = InputForm.field_value InputForm.FJiraTicketId d.
Proof.
  cbn. destruct (InputForm.jiraTicketId d) as [t|]; [|reflexivity].
  unfold JS.or_undefined, JS.truthy.
  destruct (String.eqb_spec t EmptyString) as [->|]; reflexivity.
Qed.

Lemma isFormValid_spec st :
  InputForm.isFormValid st = true
  <-> forall f,
        InputForm.validateField f (InputForm.field_value f (InputForm.formData st)) = None.
Proof.
  unfold InputForm.isFormValid. rewrite Nat.eqb_eq, keys_length_zero.
  unfold InputForm.validateForm; cbn [InputForm.err_githubPrUrl
    InputForm.err_jiraTicketId InputForm.general].
  rewrite !truthy_validateField, ticket_value. split.
  - intros (Hu & Ht & _) []; assumption.
  - intros H. repeat split; [apply (H InputForm.FGithubPrUrl)|apply (H InputForm.FJiraTicketId)].
Qed.

Lemma handleSubmit_iff_canSubmit_aux props st :
  (exists cleanData st', InputForm.handleSubmit props st = InputForm.Submits cleanData st')
  -> InputForm.canSubmit props st = true.
Proof.
  intros (cleanData & st' & Hsubmit). revert Hsubmit.
  unfold InputForm.handleSubmit, InputForm.canSubmit, InputForm.isFormValid.
  destruct (InputForm.isSubmitting st), (InputForm.loading props),
    (InputForm.disabled props); cbn [orb andb negb]; try discriminate.
  destruct (InputForm.keys_length (InputForm.validateForm (InputForm.formData st)));
    cbn; [reflexivity|discriminate].
Qed.

(** X14.  [handleSubmit] calls [onSubmit] exactly when the submit button
    is enabled ([canSubmit]): the form is valid and it is neither
    submitting, nor loading, nor disabled.  When the form is valid but the
    button is not enabled the click is ignored, and when the form is
    invalid and the click is not ignored the errors of the whole form are
    shown and every field is touched. *)
Theorem handleSubmit_iff_canSubmit props st :
  ((exists cleanData st', InputForm.handleSubmit props st = InputForm.Submits cleanData st')
   <-> InputForm.canSubmit props st = true)
  /\ (InputForm.isSubmitting st || InputForm.loading props || InputForm.disabled props = true
      <-> InputForm.handleSubmit props st = InputForm.Ignored)
  /\ (forall st', InputForm.handleSubmit props st = InputForm.Blocked st' ->
                  InputForm.isFormValid st = false
                  /\ InputForm.errors st' = InputForm.validateForm (InputForm.formData st)
                  /\ forall f, InputForm.is_touched f (InputForm.touched st') = true).
Proof.
  unfold InputForm.handleSubmit, InputForm.canSubmit, InputForm.isFormValid.
  destruct (InputForm.isSubmitting st), (InputForm.loading props),
    (InputForm.disabled props); cbn [orb andb negb];
    rewrite ?andb_false_r, ?andb_true_r;
    try (split; [split; [intros (? & ? & [=])|discriminate]
                |split; [tauto|intros ? [=]]]).
  destruct (InputForm.keys_length _) as [|n] eqn:Hkeys; cbn.
  - split; [split; eauto|]. split; [split; discriminate|intros ? [=]].
  - split; [split; [intros (? & ? & [=])|discriminate]|].
    split; [split; discriminate|].
    intros st' [= <-]. cbn. repeat split. intros []; reflexivity.
Qed.

Lemma handleSubmit_iff_canSubmit_witness :
  exists cleanData st',
    InputForm.handleSubmit Scenario.enabled Scenario.valid_form
    = InputForm.Submits cleanData st'.
Proof.
  apply (proj1 (handleSubmit_iff_canSubmit Scenario.enabled Scenario.valid_form)).
  reflexivity.
Defined.

(** X15.  What the form hands to [onSubmit] is clean and valid: the URL is
    the trimmed field and matches the URL pattern, and the ticket is either
    absent (for a blank field) or the trimmed field, which then matches the
    ticket pattern.  Cleaning it again in [generateSummary] changes
    nothing, so the body sent to the backend carries exactly these
    values. *)
Theorem submitted_data_is_clean props st cleanData st' :
  InputForm.handleSubmit props st = InputForm.Submits cleanData st' ->
  let d := InputForm.formData st in
  InputForm.githubPrUrl cleanData = JS.trim (InputForm.githubPrUrl d)
  /\ RegExp.test InputForm.GITHUB_PR_URL_PATTERN (InputForm.githubPrUrl cleanData) = true
  /\ match InputForm.jiraTicketId cleanData with
     | None => JS.trim (InputForm.field_value InputForm.FJiraTicketId d) = EmptyString
     | Some t => t = JS.trim (InputForm.field_value InputForm.FJiraTicketId d)
                 /\ RegExp.test InputForm.JIRA_TICKET_PATTERN t = true
     end
  /\ clean {| githubPrUrl := InputForm.githubPrUrl cleanData;
              jiraTicketId := InputForm.jiraTicketId cleanData |}
     = {| github_pr_url := InputForm.githubPrUrl cleanData;
          jira_ticket_id := InputForm.jiraTicketId cleanData |}
  /\ InputForm.isSubmitting st' = true.
Proof.
  intros Hsubmit d.
  assert (Hcan : InputForm.canSubmit props st = true)
    by (apply handleSubmit_iff_canSubmit_aux; eauto).
  unfold InputForm.canSubmit in Hcan.
  apply andb_true_iff in Hcan as [Hcan _]. apply andb_true_iff in Hcan as [Hcan _].
  apply andb_true_iff in Hcan as [Hvalid _].
  pose proof (proj1 (isFormValid_spec st) Hvalid) as Hfields.
  pose proof (Hfields InputForm.FGithubPrUrl) as Hurl.
  pose proof (Hfields InputForm.FJiraTicketId) as Hticket.
  fold d in Hurl, Hticket.
  unfold InputForm.handleSubmit in Hsubmit.
  destruct (_ || _); [discriminate|]. destruct (_ <? _)%nat; [discriminate|].
  injection Hsubmit as <- <-. cbn [InputForm.githubPrUrl InputForm.jiraTicketId
                                   InputForm.isSubmitting]. fold d.
  (* the URL *)
  assert (Hurl_ok : RegExp.test InputForm.GITHUB_PR_URL_PATTERN
                      (JS.trim (InputForm.githubPrUrl d)) = true).
  { unfold InputForm.validateField in Hurl. cbn [InputForm.field_value] in Hurl.
    destruct (JS.truthy _); cbn in Hurl; [|discriminate].
    destruct (RegExp.test _ _); [reflexivity|discriminate]. }
  (* the ticket *)
  assert (Hticket_ok :
            JS.truthy (Some (JS.trim (InputForm.field_value InputForm.FJiraTicketId d))) = true ->
            RegExp.test InputForm.JIRA_TICKET_PATTERN
              (JS.trim (InputForm.field_value InputForm.FJiraTicketId d)) = true).
  { intros Htruthy. unfold InputForm.validateField in Hticket. rewrite Htruthy in Hticket.
    destruct (RegExp.test _ _); [reflexivity|discriminate]. }
  assert (Hclean_ticket :
            JS.or_undefined (JS.trim <$> InputForm.jiraTicketId d)
            = JS.or_undefined (Some (JS.trim (InputForm.field_value InputForm.FJiraTicketId d)))).
  { cbn [InputForm.field_value]. destruct (InputForm.jiraTicketId d); reflexivity. }
  rewrite Hclean_ticket. unfold JS.or_undefined at 1 2 3.
  destruct (JS.truthy (Some (JS.trim (InputForm.field_value InputForm.FJiraTicketId d))))
    eqn:Htruthy.
  - split; [reflexivity|split; [exact Hurl_ok|split; [split; [reflexivity|auto]|]]].
    split; [|reflexivity].
    unfold clean; cbn [githubPrUrl jiraTicketId fmap option_fmap option_map].
    rewrite !trim_idem. unfold JS.or_undefined. now rewrite Htruthy.
  - split; [reflexivity|split; [exact Hurl_ok|split; [now apply truthy_trim_empty|]]].
    split; [|reflexivity].
    unfold clean; cbn [githubPrUrl jiraTicketId fmap option_fmap option_map].
    now rewrite trim_idem.
Qed.

Lemma submitted_data_is_clean_witness :
  clean {| githubPrUrl := "https://github.com/acme/widgets/pull/42";
           jiraTicketId := Some "PROJ-7" |}
  = {| github_pr_url := "https://github.com/acme/widgets/pull/42";
       jira_ticket_id := Some "PROJ-7" |}.
Proof.
  apply (submitted_data_is_clean Scenario.enabled Scenario.valid_form
           {| InputForm.githubPrUrl := "https://github.com/acme/widgets/pull/42";
              InputForm.jiraTicketId := Some "PROJ-7" |}
           {| InputForm.formData := InputForm.formData Scenario.valid_form;
              InputForm.errors := InputForm.no_errors;
              InputForm.touched := {[ "githubPrUrl" := true; "jiraTicketId" := true ]};
              InputForm.isSubmitting := true |}).
  reflexivity.
Defined.

(** ** The errors the form shows *)

#[global] Instance FieldName_eq_dec : EqDecision InputForm.FieldName.
Proof. solve_decision. Defined.

Lemma get_set_error f g x e :
  InputForm.get_error g (InputForm.set_error f x e)
  = if decide (f = g) then x else InputForm.get_error g e.
Proof. destruct f, g; reflexivity. Qed.

Lemma field_value_set f g v d :
  InputForm.field_value g (InputForm.set_field f v d)
  = if decide (f = g) then v else InputForm.field_value g d.
Proof. destruct f, g; reflexivity. Qed.

Lemma is_touched_insert f g t :
  InputForm.is_touched g (<[InputForm.name_of f := true]> t)
  = if decide (f = g) then true else InputForm.is_touched g t.
Proof.
  unfold InputForm.is_touched. destruct (decide (f = g)) as [->|Hne].
  - now rewrite lookup_insert_eq.
  - rewrite lookup_insert_ne; [reflexivity|]. destruct f, g; congruence || discriminate.
Qed.

Lemma or_undefined_falsy x : JS.truthy x = false -> JS.or_undefined x = None.
Proof. unfold JS.or_undefined. now intros ->. Qed.

Lemma or_undefined_truthy x : JS.truthy x = true -> JS.or_undefined x = x.
Proof. unfold JS.or_undefined. now intros ->. Qed.

Lemma validateField_falsy f v :
  JS.truthy (InputForm.validateField f v) = false -> InputForm.validateField f v = None.
Proof. intros H. rewrite <- truthy_validateField. now apply or_undefined_falsy. Qed.

Lemma shown_error_change f v st g :
  shown_error g (InputForm.handleInputChange f v st)
  = if decide (f = g)
    then if InputForm.is_touched f (InputForm.touched st)
         then InputForm.validateField f v
         else None
    else shown_error g st.
Proof.
  unfold shown_error, InputForm.handleInputChange; cbn [InputForm.errors].
  destruct (decide (f = g)) as [<-|Hne].
  - assert (Hcleared :
              JS.or_undefined
                (InputForm.get_error f
                   (if JS.truthy (InputForm.get_error f (InputForm.errors st))
                    then InputForm.set_error f None (InputForm.errors st)
                    else InputForm.errors st)) = None).
    { destruct (JS.truthy (InputForm.get_error f (InputForm.errors st))) eqn:Ht.
      - rewrite get_set_error. destruct (decide (f = f)); [reflexivity|contradiction].
      - now apply or_undefined_falsy. }
    destruct (InputForm.is_touched f (InputForm.touched st)); [|exact Hcleared].
    destruct (JS.truthy (InputForm.validateField f v)) eqn:Hv.
    + rewrite get_set_error. destruct (decide (f = f)); [|contradiction].
      apply truthy_validateField.
    + rewrite Hcleared. symmetry. now apply validateField_falsy.
  - repeat match goal with
           | |- context [if ?b then _ else _] =>
               lazymatch b with decide _ => fail | _ => destruct b end
           end;
      rewrite ?get_set_error;
      repeat match goal with
             | |- context [decide (f = g)] => destruct (decide (f = g)); [contradiction|]
             end;
      reflexivity.
Qed.

(** X16.  Every handler of the form keeps it coherent: a field the user
    has touched shows exactly the validation error of the value it
    currently holds, and an untouched field shows no error.  This holds
    for the freshly mounted form and is preserved by typing, by leaving a
    field, by a submission that is blocked or accepted, by a submission
    that resolves, and by a submission that rejects while the form data is
    still the valid data that was submitted. *)
Theorem form_errors_stay_coherent :
  (forall initial_url initial_ticket,
      coherent (InputForm.initial initial_url initial_ticket))
  /\ (forall f v st, coherent st -> coherent (InputForm.handleInputChange f v st))
  /\ (forall f st,
         coherent st ->
         coherent (InputForm.handleInputBlur f
                     (InputForm.field_value f (InputForm.formData st)) st))
  /\ (forall props st st',
         InputForm.handleSubmit props st = InputForm.Blocked st' -> coherent st')
  /\ (forall props st cleanData st',
         InputForm.handleSubmit props st = InputForm.Submits cleanData st' -> coherent st')
  /\ (forall st, coherent (InputForm.submit_resolved st))
  /\ (forall message st,
         InputForm.isFormValid st = true ->
         coherent (InputForm.submit_rejected message st)).
Proof.
  repeat match goal with |- _ /\ _ => split end.
  - intros u t f. now destruct f.
  - intros f v st Hco g. rewrite shown_error_change.
    cbn [InputForm.handleInputChange InputForm.touched InputForm.formData].
    rewrite field_value_set.
    destruct (decide (f = g)) as [<-|Hne]; [reflexivity|apply Hco].
  - intros f st Hco g. specialize (Hco g).
    unfold shown_error, InputForm.handleInputBlur in *;
      cbn [InputForm.errors InputForm.touched InputForm.formData].
    rewrite is_touched_insert.
    destruct (JS.truthy (InputForm.validateField f _)) eqn:Hv.
    + rewrite get_set_error. destruct (decide (f = g)) as [<-|Hne]; [|exact Hco].
      apply truthy_validateField.
    + apply validateField_falsy in Hv.
      destruct (decide (f = g)) as [<-|Hne]; [|exact Hco].
      rewrite Hco, Hv. now destruct (InputForm.is_touched _ _).
  - intros props st st' Hblocked. unfold InputForm.handleSubmit in Hblocked.
    destruct (_ || _); [discriminate|]. destruct (_ <? _)%nat; [|discriminate].
    injection Hblocked as <-. intros f. unfold shown_error.
    cbn [InputForm.errors InputForm.touched InputForm.formData].
    destruct f; cbn [InputForm.get_error InputForm.validateForm
                       InputForm.err_githubPrUrl InputForm.err_jiraTicketId].
    + now rewrite !truthy_validateField.
    + now rewrite !truthy_validateField, ticket_value.
  - intros props st cleanData st' Hsubmit.
    assert (Hcan : InputForm.canSubmit props st = true)
      by (apply handleSubmit_iff_canSubmit_aux; eauto).
    unfold InputForm.canSubmit in Hcan. rewrite !andb_true_iff in Hcan.
    destruct Hcan as [[[Hvalid _] _] _].
    unfold InputForm.handleSubmit in Hsubmit.
    destruct (_ || _); [discriminate|]. destruct (_ <? _)%nat; [discriminate|].
    injection Hsubmit as <- <-. intros f. unfold shown_error.
    cbn [InputForm.errors InputForm.touched InputForm.formData].
    rewrite (proj1 (isFormValid_spec st) Hvalid f). now destruct f.
  - intros st f. now destruct f.
  - intros message st Hvalid f. unfold shown_error.
    cbn [InputForm.submit_rejected InputForm.errors InputForm.touched InputForm.formData].
    rewrite (proj1 (isFormValid_spec st) Hvalid f).
    destruct f; cbn; now destruct (InputForm.is_touched _ _).
Qed.

Lemma form_errors_stay_coherent_witness :
  coherent (InputForm.handleInputChange InputForm.FJiraTicketId "invalid ticket!"
              (InputForm.handleInputBlur InputForm.FJiraTicketId EmptyString
                 (InputForm.initial None None))).
Proof.
  destruct form_errors_stay_coherent as (Hinit & Hchange & Hblur & _).
  apply Hchange.
  apply (Hblur InputForm.FJiraTicketId (InputForm.initial None None)).
  apply Hinit.
Defined.

(** ** The application *)

Lemma append_nonempty s t : s <> EmptyString -> s +:+ t <> EmptyString.
Proof. destruct s; [contradiction|]. rewrite append_cons. discriminate. Qed.

Lemma getErrorMessage_not_empty engine_text error :
  App.getErrorMessage engine_text error <> EmptyString.
Proof.
  unfold App.getErrorMessage.
  destruct (App.instance_of ClsValidationAPIError error);
    [apply append_nonempty; discriminate|].
  destruct (App.instance_of ClsNetworkError error); [discriminate|].
  destruct (App.instance_of ClsTimeoutError error); [discriminate|].
  destruct (App.instance_of ClsAPIClientError error) as [e|].
  - repeat match goal with
           | |- context [match ?x with _ => _ end] => destruct x
           end;
      first [discriminate | apply append_nonempty; discriminate].
  - destruct (JS.truthy (Some (App.message_of engine_text error))) eqn:Ht; [|discriminate].
    intros Hempty. rewrite Hempty in Ht. discriminate.
Qed.

(** X17.  [getErrorMessage] never returns the empty string, whatever the
    error: the user is always told something. *)
Theorem getErrorMessage_nonempty engine_text error :
  App.getErrorMessage engine_text error <> EmptyString.
Proof. apply getErrorMessage_not_empty. Qed.

Lemma getErrorMessage_nonempty_witness :
  App.getErrorMessage EmptyString (TypeErr EmptyString) <> EmptyString.
Proof. apply (getErrorMessage_nonempty EmptyString (TypeErr EmptyString)). Defined.

(** X18.  While a summary request is in flight the summary panel shows the
    loading view.  Once it has settled, loading is over and the request is
    remembered; a call that resolved shows its summary and no error, and a
    call that rejected shows the error view with the message of
    [getErrorMessage] and no summary. *)
Theorem request_outcome_is_shown engine_text w env formData st :
  let run := fst (App.summary_request engine_text w env formData st) in
  let st' := snd (App.summary_request engine_text w env formData st) in
  App.summary_view (App.request_started formData st) = SummaryDisplay.ViewLoading
  /\ App.loading st' = false
  /\ App.lastRequest st' = Some formData
  /\ match settled run with
     | Resolved s =>
         App.summary st' = Some s /\ App.error st' = None
         /\ App.summary_view st' = SummaryDisplay.ViewLoaded s
     | Rejected e =>
         App.summary st' = None
         /\ App.summary_view st'
            = SummaryDisplay.ViewError (App.getErrorMessage engine_text e)
     end.
Proof.
  cbn zeta. unfold App.summary_request; cbn [fst snd].
  destruct (settled (App.handleSummaryRequest w env formData)) as [s|e];
    cbn [App.request_settled App.request_started App.loading App.lastRequest
         App.summary App.error];
    repeat split.
  unfold App.summary_view, SummaryDisplay.render;
    cbn [App.summary App.loading App.error].
  pose proof (getErrorMessage_not_empty engine_text e) as Hne.
  unfold JS.or_undefined, JS.truthy.
  destruct (String.eqb_spec (App.getErrorMessage engine_text e) EmptyString);
    [contradiction|]. cbn.
  destruct (String.eqb_spec (App.getErrorMessage engine_text e) EmptyString);
    [contradiction|reflexivity].
Qed.

(** X19.  After a summary request, whatever its outcome, [handleRetry]
    issues the request for the same form data again: every attempt of the
    retry is a POST to the summary endpoint whose body is the serialized
    clean form data of the original request.  After [handleNewSummary], and
    before any request, [handleRetry] does nothing. *)
Theorem retry_replays_last_request engine_text w env formData st w2 env2 :
  let st1 := snd (App.summary_request engine_text w env formData st) in
  App.handleRetry engine_text w2 env2 st1
  = Some (App.summary_request engine_text w2 env2 formData st1)
  /\ (forall url init deadline,
         EvFetch url init deadline
           ∈ events (fst (App.summary_request engine_text w2 env2 formData st1)) ->
         url = baseURL (config (this w2)) +:+ "/api/v1/summary/generate"
         /\ init_method init = Some "POST"
         /\ init_body init
            = Some (JSON_stringify
                      (clean {| githubPrUrl := InputForm.githubPrUrl formData;
                                jiraTicketId := InputForm.jiraTicketId formData |})))
  /\ App.handleRetry engine_text w2 env2 (App.handleNewSummary st1) = None
  /\ App.handleRetry engine_text w2 env2 App.initial = None.
Proof.
  cbn zeta. split; [|split; [|split; reflexivity]].
  - unfold App.handleRetry, App.summary_request; cbn [snd].
    now destruct (settled (App.handleSummaryRequest w env formData)).
  - intros url init deadline Hin.
    unfold App.summary_request in Hin; cbn [fst] in Hin.
    unfold App.handleSummaryRequest, generateSummary in Hin.
    destruct (request_fetch_events _ _ _ _ _ _ Hin eq_refl) as [c [= -> -> _]].
    repeat split.
Qed.

Lemma retry_replays_last_request_witness :
  let first_attempt :=
    EvFetch "http://localhost:8000/api/v1/summary/generate"
      {| init_method := Some "POST";
         init_body :=
           Some (JSON_stringify
                   {| github_pr_url := "https://github.com/acme/widgets/pull/42";
                      jira_ticket_id := Some "PROJ-7" |});
         headers := [("Content-Type", "application/json"); ("Accept", "application/json")];
         signal := Some 0%nat |}
      30000 in
  let retry :=
    fst (App.summary_request EmptyString Scenario.client0 Scenario.flaky
           (InputForm.formData Scenario.valid_form)
           (snd (App.summary_request EmptyString Scenario.client0
                   (Scenario.always (Scenario.quiet TimerFires))
                   (InputForm.formData Scenario.valid_form) App.initial))) in
  first_attempt ∈ events retry
  /\ baseURL (config (this Scenario.client0)) +:+ "/api/v1/summary/generate"
     = "http://localhost:8000/api/v1/summary/generate".
Proof.
  intros first_attempt retry.
  assert (Hin : first_attempt ∈ events retry) by apply list_elem_of_here.
  split; [exact Hin|].
  symmetry.
  apply (proj1 (proj2 (retry_replays_last_request EmptyString Scenario.client0
                         (Scenario.always (Scenario.quiet TimerFires))
                         (InputForm.formData Scenario.valid_form) App.initial
                         Scenario.client0 Scenario.flaky)) _ _ _ Hin).
Defined.

(** X20.  When the health probe rejects, the health status is unhealthy
    and submitting the form causes no network event, whatever the form
    holds; when the probe resolves the status is healthy. *)
Theorem unhealthy_backend_blocks_submission w env :
  (forall e, settled (ping w env) = Rejected e ->
             App.checkAPIHealth w env = App.unhealthy
             /\ forall st form w' env',
                  App.submit (App.form_props st (App.checkAPIHealth w env)) form w' env'
                  = [])
  /\ (forall data, settled (ping w env) = Resolved data ->
                   App.checkAPIHealth w env = App.healthy).
Proof.
  unfold App.checkAPIHealth. split.
  - intros e ->. split; [reflexivity|].
    intros st form w' env'. unfold App.submit, InputForm.handleSubmit; cbn.
    now rewrite !orb_true_r.
  - now intros data ->.
Qed.

Lemma unhealthy_backend_blocks_submission_witness :
  App.submit
    (App.form_props App.initial
       (App.checkAPIHealth Scenario.client0 (Scenario.always Scenario.load_failed)))
    Scenario.valid_form Scenario.client0
    (Scenario.always (Scenario.quiet (Responds Scenario.success)))
  = [].
Proof.
  apply (proj1 (unhealthy_backend_blocks_submission Scenario.client0
                  (Scenario.always Scenario.load_failed))
           (TypeErr "Load failed") eq_refl).
Defined.

(** ** The summary panel *)

(** X21.  A click on a section header toggles that section and no other:
    the section is expanded afterwards exactly when it was not before, the
    other sections keep their state, and a second click restores the set
    of expanded sections. *)
Theorem toggleSection_involutive sectionKey (prev : gset string) :
  (sectionKey ∈ SummaryDisplay.toggleSection sectionKey prev <-> sectionKey ∉ prev)
  /\ (forall other, other <> sectionKey ->
                    other ∈ SummaryDisplay.toggleSection sectionKey prev <-> other ∈ prev)
  /\ SummaryDisplay.toggleSection sectionKey
       (SummaryDisplay.toggleSection sectionKey prev) = prev.
Proof.
  unfold SummaryDisplay.toggleSection.
  destruct (decide (sectionKey ∈ prev)) as [Hin|Hout].
  - split; [|split].
    + rewrite elem_of_difference, elem_of_singleton. tauto.
    + intros other Hne. rewrite elem_of_difference, elem_of_singleton. tauto.
    + rewrite decide_False by (rewrite elem_of_difference, elem_of_singleton; tauto).
      apply set_eq. intros x.
      rewrite elem_of_union, elem_of_difference, !elem_of_singleton.
      destruct (decide (x = sectionKey)) as [->|]; tauto.
  - split; [|split].
    + rewrite elem_of_union, elem_of_singleton. tauto.
    + intros other Hne. rewrite elem_of_union, elem_of_singleton. tauto.
    + rewrite decide_True by (rewrite elem_of_union, elem_of_singleton; tauto).
      apply set_eq. intros x.
      rewrite elem_of_difference, elem_of_union, !elem_of_singleton.
      destruct (decide (x = sectionKey)) as [->|]; tauto.
Qed.

Lemma toggleSection_involutive_witness :
  "risk_complexity" ∈ SummaryDisplay.toggleSection "risk_complexity" (∅ : gset string).
Proof.
  apply (proj1 (toggleSection_involutive "risk_complexity" ∅)).
  apply not_elem_of_empty.
Defined.

(** ** One controller per attempt *)

Lemma run_actions_length acts w :
  (length (signals w) <= length (signals (run_actions acts w)))%nat.
Proof.
  revert w; induction acts as [|a acts IH]; intros w; [reflexivity|].
  cbn [run_actions fold_left]. etransitivity; [|apply IH].
  destruct a; cbn.
  - unfold cancelRequests. destruct (abortController (this w)); cbn;
      [rewrite length_insert|]; lia.
  - rewrite length_app; cbn. lia.
Qed.

Lemma after_invoke_length w a endpoint options retryCount :
  (S (length (signals w))
   <= length (signals (after (invoke w a endpoint options retryCount))))%nat.
Proof.
  unfold invoke; cbn.
  etransitivity; [|apply (run_actions_length (while_pending a))].
  cbn. rewrite length_app; cbn. lia.
Qed.

Lemma request_fetch_signals env endpoint options :
  forall w retryCount,
    let cs := fetch_signals (events (request w env endpoint options retryCount)) in
    Forall (fun c => (length (signals w) <= c)%nat) cs /\ StronglySorted lt cs.
Proof.
  refine (request_induction env endpoint options _ _); intros w retryCount IH.
  cbn zeta. rewrite request_unfold; cbn zeta. rewrite fetched_invoke.
  destruct (step (invoke w (env retryCount) endpoint options retryCount))
    as [data|e|delay] eqn:Hstep; cbn [events fetch_signals signal].
  1,2: split; [repeat constructor|repeat constructor].
  destruct (IH delay eq_refl) as [IHge IHsorted].
  pose proof (after_invoke_length w (env retryCount) endpoint options retryCount) as Hlen.
  pose proof (run_actions_length (while_sleeping (env retryCount))
                (after (invoke w (env retryCount) endpoint options retryCount))) as Hlen'.
  split.
  - constructor; [lia|]. eapply Forall_impl; [exact IHge|]. cbn. intros c Hc. lia.
  - constructor; [exact IHsorted|].
    eapply Forall_impl; [exact IHge|]. cbn. intros c Hc. lia.
Qed.

Lemma request_fetch_signals_length env endpoint options :
  forall w retryCount,
    Z.of_nat (length (fetch_signals (events (request w env endpoint options retryCount))))
    = attempts (events (request w env endpoint options retryCount)).
Proof.
  refine (request_induction env endpoint options _ _); intros w retryCount IH.
  rewrite request_unfold; cbn zeta. rewrite fetched_invoke.
  destruct (step (invoke w (env retryCount) endpoint options retryCount))
    as [data|e|delay] eqn:Hstep; cbn [events fetch_signals signal];
    rewrite attempts_fetch; [reflexivity..|].
  rewrite attempts_sleep. cbn [length]. specialize (IH delay eq_refl). lia.
Qed.

(** X22.  Every attempt of a call is given a controller of its own: the
    controllers of the attempts did not exist when the call started, and
    each is newer than the one before, whatever other callers do in
    between; in particular no two attempts share a signal. *)
Theorem one_controller_per_attempt w env endpoint options :
  let run := request w env endpoint options 0 in
  let cs := fetch_signals (events run) in
  Z.of_nat (length cs) = attempts (events run)
  /\ Forall (fun c => (length (signals w) <= c)%nat) cs
  /\ StronglySorted lt cs
  /\ NoDup cs.
Proof.
  intros run cs.
  destruct (request_fetch_signals env endpoint options w 0) as [Hge Hsorted].
  fold run cs in Hge, Hsorted.
  split; [|split; [exact Hge|split; [exact Hsorted|]]].
  - apply request_fetch_signals_length.
  - clear Hge. induction Hsorted as [|c cs' Hs IH Hall]; constructor; [|exact IH].
    intros Hin. rewrite Forall_forall in Hall. specialize (Hall c Hin). lia.
Qed.

Example crowded_call_controllers :
  fetch_signals (events (getHealth Scenario.client_busy Scenario.crowded))
  = [1; 4; 7; 10]%nat.
Proof. reflexivity. Qed.
